(** * Stabilizer-group update under fusion measurements

    A shallow embedding of [fusion_update.py] (the same functions are also
    in [support.py]): the Pauli algebra ([multiply_pauli], [anticommutes])
    and the resource updater ([update_resource_with_fusions]).

    Python values are modelled as follows.
    - [str] is [string]; [zip(P,Q)] is [zip_str].
    - [int] is [Z]; [%] on a positive modulus is [Z.modulo], [^] is
      [Z.lxor].
    - a raised exception is the [Raise] case of [result].
    - the dict [_SINGLE_MULT] and the [outcomes] dict are [gmap]s, the set
      [anti_pairs] is a [gset].
    - a Python list is an object in a store ([heap]); a variable holding a
      list holds a reference ([loc]), so that aliasing between the caller's
      list and the working list is visible. *)

From Stdlib Require Import ZArith Ascii String Sorted.
From stdpp Require Import gmap strings list fin_maps.

Local Open Scope Z_scope.

(** ** Exceptions and results *)

Inductive exn : Type :=
| AssertionError_MismatchedLength
    (* assert len(P) == len(Q), "Mismatched length" *)
| KeyError (key : ascii * ascii)
    (* _SINGLE_MULT[(a,b)] with (a,b) not a key *)
| ValueError_NonHermitianPhase
    (* raise ValueError("Non-Hermitian phase ... encountered.") *)
| ValueError_MeasurementLength
    (* raise ValueError("Measurement length does not match stabilizer length") *)
| IndexError
    (* list index out of range *)
| UnboundReference.
    (* not a Python exception: the store holds no list at the reference *)

Inductive result (A : Type) : Type :=
| Ok (a : A)
| Raise (e : exn).
Arguments Ok {A} a.
Arguments Raise {A} e.

Definition is_ok {A} (r : result A) : bool :=
  match r with Ok _ => true | Raise _ => false end.

(** ** Signed Pauli operators *)

(** A signed Pauli operator is the Python tuple [(sign, string)]. *)
Abbreviation gen := (Z * string)%type.

Definition chI : ascii := "I"%char.
Definition chX : ascii := "X"%char.
Definition chY : ascii := "Y"%char.
Definition chZ : ascii := "Z"%char.

(** [zip(P, Q)] over two strings: pairs of characters, as long as both
    strings last. *)
Fixpoint zip_str (P Q : string) : list (ascii * ascii) :=
  match P, Q with
  | String a P', String b Q' => (a, b) :: zip_str P' Q'
  | _, _ => []
  end.

(** [''.join(out_chars)] *)
Fixpoint join (cs : list ascii) : string :=
  match cs with
  | [] => EmptyString
  | c :: cs' => String c (join cs')
  end.

(** ** The single-qubit table *)

Definition _SINGLE_MULT : gmap (ascii * ascii) (Z * ascii) :=
  list_to_map [
    ((chI,chI),(0,chI)); ((chI,chX),(0,chX)); ((chI,chY),(0,chY)); ((chI,chZ),(0,chZ));
    ((chX,chI),(0,chX)); ((chX,chX),(0,chI)); ((chX,chY),(1,chZ)); ((chX,chZ),(3,chY));
    ((chY,chI),(0,chY)); ((chY,chX),(3,chZ)); ((chY,chY),(0,chI)); ((chY,chZ),(1,chX));
    ((chZ,chI),(0,chZ)); ((chZ,chX),(1,chY)); ((chZ,chY),(3,chX)); ((chZ,chZ),(0,chI))
  ].

Arguments _SINGLE_MULT : simpl never.

(** ** [multiply_pauli] *)

(** The body of [for a,b in zip(P,Q)], on the loop state
    [(phase_exp, out_chars)]. *)
Fixpoint multiply_loop (ps : list (ascii * ascii)) (phase_exp : Z)
    (out_chars : list ascii) : result (Z * list ascii) :=
  match ps with
  | [] => Ok (phase_exp, out_chars)
  | (a, b) :: ps' =>
      match _SINGLE_MULT !! (a, b) with
      | None => Raise (KeyError (a, b))
      | Some (e, r) =>
          multiply_loop ps' ((phase_exp + e) mod 4) (out_chars ++ [r])
      end
  end.

Definition multiply_pauli (p q : gen) : result gen :=
  let '(sp, P) := p in
  let '(sq, Q) := q in
  if decide (String.length P = String.length Q) then
    match multiply_loop (zip_str P Q) 0 [] with
    | Raise e => Raise e
    | Ok (phase_exp, out_chars) =>
        if decide (phase_exp mod 2 ≠ 0) then
          Raise ValueError_NonHermitianPhase
        else
          let sign := sp * sq * (if decide (phase_exp = 0) then 1 else -1) in
          Ok (sign, join out_chars)
    end
  else Raise AssertionError_MismatchedLength.

(** ** [anticommutes] *)

Definition anti_pairs : gset (ascii * ascii) :=
  {[ (chX,chY); (chY,chX); (chX,chZ); (chZ,chX); (chY,chZ); (chZ,chY) ]}.

Arguments anti_pairs : simpl never.

(** The test of the [if] inside the loop. *)
Definition anti_at (a b : ascii) : bool :=
  bool_decide (a ≠ chI) && bool_decide (b ≠ chI) && bool_decide (a ≠ b)
  && bool_decide ((a, b) ∈ anti_pairs).

Fixpoint anticommutes_loop (ps : list (ascii * ascii)) (parity : Z) : Z :=
  match ps with
  | [] => parity
  | (a, b) :: ps' =>
      if anti_at a b then anticommutes_loop ps' (Z.lxor parity 1)
      else anticommutes_loop ps' parity
  end.

Definition anticommutes (P Q : string) : result bool :=
  if decide (String.length P = String.length Q) then
    Ok (anticommutes_loop (zip_str P Q) 0 =? 1)
  else Raise AssertionError_MismatchedLength.

(** [pretty] *)
Definition pretty (p : gen) : string :=
  let '(s, P) := p in
  ((if decide (s >= 0) then "+" else "-") ++ P)%string.

(** ** The store of list objects *)

Abbreviation loc := positive.
Abbreviation heap := (gmap loc (list gen)).

(** Computations that read and write the store and may raise. When an
    exception is raised the store is the one at the time of the raise. *)
Definition Py (A : Type) : Type := heap → result A * heap.

Definition ret {A} (a : A) : Py A := λ h, (Ok a, h).
Definition raise {A} (e : exn) : Py A := λ h, (Raise e, h).
Definition lift {A} (r : result A) : Py A := λ h, (r, h).
Definition bind {A B} (m : Py A) (k : A → Py B) : Py B :=
  λ h, match m h with
       | (Ok a, h') => k a h'
       | (Raise e, h') => (Raise e, h')
       end.

Notation "'let!' x ':=' m 'in' k" := (bind m (λ x, k))
  (at level 10, x name, m at level 100, k at level 200,
   format "'[v' 'let!'  x  ':='  m  'in' '/' k ']'").
Notation "'do!' m 'in' k" := (bind m (λ _, k))
  (at level 10, m at level 100, k at level 200,
   format "'[v' 'do!'  m  'in' '/' k ']'").

(** The value of the list object at [l]. *)
Definition list_read (l : loc) : Py (list gen) :=
  λ h, match h !! l with
       | Some v => (Ok v, h)
       | None => (Raise UnboundReference, h)
       end.

(** [l[:]]: a new list object with the same items. *)
Definition list_copy (l : loc) : Py loc :=
  λ h, match h !! l with
       | Some v => let l' := fresh (dom h) in (Ok l', <[l' := v]> h)
       | None => (Raise UnboundReference, h)
       end.

(** [l[i]] *)
Definition list_getitem (l : loc) (i : nat) : Py gen :=
  λ h, match h !! l with
       | Some v =>
           match v !! i with
           | Some x => (Ok x, h)
           | None => (Raise IndexError, h)
           end
       | None => (Raise UnboundReference, h)
       end.

(** [l[i] = x] *)
Definition list_setitem (l : loc) (i : nat) (x : gen) : Py unit :=
  λ h, match h !! l with
       | Some v =>
           if decide (i < length v)%nat then (Ok tt, <[l := <[i := x]> v]> h)
           else (Raise IndexError, h)
       | None => (Raise UnboundReference, h)
       end.

(** [l.append(x)] *)
Definition list_append (l : loc) (x : gen) : Py unit :=
  λ h, match h !! l with
       | Some v => (Ok tt, <[l := v ++ [x]]> h)
       | None => (Raise UnboundReference, h)
       end.

(** ** [update_resource_with_fusions] *)

(** [[j for j,(sg, G) in enumerate(gens) if anticommutes(G, M)]], with the
    enumeration starting at [j]. *)
Fixpoint anti_idx_from (j : nat) (gs : list gen) (M : string)
    : result (list nat) :=
  match gs with
  | [] => Ok []
  | (sg, G) :: gs' =>
      match anticommutes G M with
      | Raise e => Raise e
      | Ok b =>
          match anti_idx_from (S j) gs' M with
          | Raise e => Raise e
          | Ok js => Ok (if b then j :: js else js)
          end
      end
  end.

(** [for j in anti_idx[1:]: gens[j] = multiply_pauli(gens[j], old_pivot)] *)
Fixpoint multiply_others (gens : loc) (old_pivot : gen) (js : list nat)
    : Py unit :=
  match js with
  | [] => ret tt
  | j :: js' =>
      let! gj := list_getitem gens j in
      let! r := lift (multiply_pauli gj old_pivot) in
      do! list_setitem gens j r in
      multiply_others gens old_pivot js'
  end.

(** The body of [for M in fusion_meas]. *)
Definition measure (n : nat) (outcomes : gmap string Z) (gens : loc)
    (M : string) : Py unit :=
  if decide (String.length M ≠ n) then raise ValueError_MeasurementLength
  else
    let outcome := default 1 (outcomes !! M) in
    let! gs := list_read gens in
    let! anti_idx := lift (anti_idx_from 0 gs M) in
    match anti_idx with
    | [] => list_append gens (outcome, M)
    | p :: rest =>
        let! old_pivot := list_getitem gens p in
        do! list_setitem gens p (outcome, M) in
        multiply_others gens old_pivot rest
    end.

Fixpoint measure_all (n : nat) (outcomes : gmap string Z) (gens : loc)
    (fusion_meas : list string) : Py unit :=
  match fusion_meas with
  | [] => ret tt
  | M :: ms =>
      do! measure n outcomes gens M in
      measure_all n outcomes gens ms
  end.

(** [n = len(gens[0][1]) if gens else (len(fusion_meas[0]) if fusion_meas else 0)] *)
Definition qubit_count (gs : list gen) (fusion_meas : list string) : nat :=
  match gs with
  | g0 :: _ => String.length g0.2
  | [] =>
      match fusion_meas with
      | M0 :: _ => String.length M0
      | [] => 0%nat
      end
  end.

(** [resource_gens] is the reference to the caller's list; [outcomes] is
    [None] when the argument is left out. The result is the reference to
    the list that is returned. *)
Definition update_resource_with_fusions (resource_gens : loc)
    (fusion_meas : list string) (outcomes : option (gmap string Z)) : Py loc :=
  let outcomes := default ∅ outcomes in
  let! gens := list_copy resource_gens in
  let! gs := list_read gens in
  let n := qubit_count gs fusion_meas in
  do! measure_all n outcomes gens fusion_meas in
  ret gens.

(** ** Well-formed inputs *)

(** The four-symbol alphabet of the data model. *)
Definition pauli_char (a : ascii) : bool :=
  bool_decide (a ∈ [chI; chX; chY; chZ]).

Fixpoint pauli_string (P : string) : bool :=
  match P with
  | EmptyString => true
  | String a P' => pauli_char a && pauli_string P'
  end.

(** A valid Hermitian Pauli operator: sign [+1] or [-1], string over the
    alphabet. *)
Definition valid_gen (p : gen) : bool :=
  bool_decide (p.1 = 1 ∨ p.1 = -1) && pauli_string p.2.

(** All pairs of a zipped list are over the alphabet. *)
Definition pauli_pairs (ps : list (ascii * ascii)) : Prop :=
  Forall (λ ab, pauli_char ab.1 = true ∧ pauli_char ab.2 = true) ps.

(** ** The product table in the words of the specification

    [I] is neutral with phase 0; equal symbols give [I] with phase 0;
    [X·Y → i·Z], [Y·X → -i·Z], [Y·Z → i·X], [Z·Y → -i·X], [Z·X → i·Y],
    [X·Z → -i·Y], where [i] is exponent 1 and [-i] is exponent 3. *)
Definition table_spec (a b : ascii) : Z * ascii :=
  if decide (a = chI) then (0, b)
  else if decide (b = chI) then (0, a)
  else if decide (a = b) then (0, chI)
  else if decide ((a, b) = (chX, chY)) then (1, chZ)
  else if decide ((a, b) = (chY, chX)) then (3, chZ)
  else if decide ((a, b) = (chY, chZ)) then (1, chX)
  else if decide ((a, b) = (chZ, chY)) then (3, chX)
  else if decide ((a, b) = (chZ, chX)) then (1, chY)
  else if decide ((a, b) = (chX, chZ)) then (3, chY)
  else (0, chI).

(** The sum of the per-position exponents, and that sum modulo 4. *)
Fixpoint phase_sum (ps : list (ascii * ascii)) : Z :=
  match ps with
  | [] => 0
  | (a, b) :: ps' => (table_spec a b).1 + phase_sum ps'
  end.

Definition total_exponent (P Q : string) : Z :=
  phase_sum (zip_str P Q) mod 4.

(** The per-position result symbols, in position order. *)
Definition product_string (P Q : string) : string :=
  join (map (λ ab, (table_spec ab.1 ab.2).2) (zip_str P Q)).

(** ** Case A, counted along a run *)

(** The test [not anti_idx] on the list at [gens] in store [h]: [M]
    anticommutes with no generator of the current list. *)
Definition case_A (gens : loc) (M : string) (h : heap) : bool :=
  match h !! gens with
  | Some gs =>
      match anti_idx_from 0 gs M with
      | Ok [] => true
      | _ => false
      end
  | None => false
  end.

(** The number of measurements of [ms] that are in Case A at the time they
    are processed, when the loop runs from store [h]. *)
Fixpoint case_A_count (n : nat) (outcomes : gmap string Z) (gens : loc)
    (ms : list string) (h : heap) : nat :=
  match ms with
  | [] => 0%nat
  | M :: ms' =>
      ((if case_A gens M h then 1 else 0)
       + case_A_count n outcomes gens ms' (measure n outcomes gens M h).2)%nat
  end.

(** ** Stabilizer generator lists *)

(** A Pauli string of [n] qubits. *)
Definition pauli_n (n : nat) (P : string) : Prop :=
  pauli_string P = true ∧ String.length P = n.

(** Whether an odd number of positions anticommute, as a boolean. *)
Fixpoint odd_anti (ps : list (ascii * ascii)) : bool :=
  match ps with
  | [] => false
  | (a, b) :: ps' => xorb (anti_at a b) (odd_anti ps')
  end.

(** A generator list of a stabilizer group on [n] qubits: Pauli strings of
    length [n] that commute with each other. *)
Definition stabilizer_list (n : nat) (gs : list gen) : Prop :=
  (∀ i x, gs !! i = Some x → pauli_n n x.2) ∧
  (∀ i j x y, gs !! i = Some x → gs !! j = Some y →
              anticommutes x.2 y.2 = Ok false).

(** ** Further notions used in the properties *)

(** The string of [n] identity symbols, ['I' * n]. *)
Fixpoint identity_string (n : nat) : string :=
  match n with
  | O => EmptyString
  | S n' => String chI (identity_string n')
  end.

(** A pair of characters that is not a key of [_SINGLE_MULT]. *)
Definition bad_pair (ab : ascii * ascii) : bool :=
  negb (pauli_char ab.1 && pauli_char ab.2).

(** What the caller of [update_resource_with_fusions] gets: the items of
    the returned list, or the exception. *)
Definition returned_list (rh : result loc * heap) : result (list gen) :=
  match rh.1 with
  | Ok g =>
      match rh.2 !! g with
      | Some v => Ok v
      | None => Raise UnboundReference
      end
  | Raise e => Raise e
  end.

(** ** Scenario 1 of the specification, the run of [example.py] *)

Definition scenario1_resource : list gen :=
  [(1, "XXX"%string); (1, "ZZI"%string); (1, "IZZ"%string)].
Definition scenario1_fusions : list string :=
  ["XII"%string; "IZI"%string].
Definition scenario1_outcomes : gmap string Z :=
  <["XII"%string := 1]> (<["IZI"%string := -1]> ∅).

(** The store of the run: the caller's list at reference 1. *)
Definition scenario1_store : heap := {[ 1%positive := scenario1_resource ]}.

(** Unfolding of the store operations. *)
Ltac py_unfold :=
  unfold bind, ret, raise, lift, list_read, list_getitem, list_setitem,
    list_append, list_copy in *.

(** Case analysis on the [decide]s of a goal whose tests are between
    numerals. *)
Ltac decide_consts :=
  repeat case_decide; try reflexivity;
  try (exfalso;
       match goal with
       | H : _ ≠ _ |- _ => apply H; reflexivity
       | H : _ = _ |- _ => discriminate H
       end).

(** * Properties of the Pauli algebra *)

Section pauli_algebra.

Lemma pauli_char_cases a :
  pauli_char a = true → a = chI ∨ a = chX ∨ a = chY ∨ a = chZ.
Proof.
  unfold pauli_char. intros H%bool_decide_eq_true.
  rewrite !elem_of_cons, elem_of_nil in H. tauto.
Qed.

(** The dictionary holds the table of the specification. *)
Lemma single_mult_table a b :
  pauli_char a = true → pauli_char b = true →
  _SINGLE_MULT !! (a, b) = Some (table_spec a b).
Proof.
  intros Ha%pauli_char_cases Hb%pauli_char_cases.
  destruct Ha as [->|[->|[->| ->]]], Hb as [->|[->|[->| ->]]];
    vm_compute; reflexivity.
Qed.

Lemma table_spec_range a b :
  pauli_char a = true → pauli_char b = true →
  ((table_spec a b).1 = 0 ∨ (table_spec a b).1 = 1 ∨ (table_spec a b).1 = 3)
  ∧ pauli_char (table_spec a b).2 = true.
Proof.
  intros Ha%pauli_char_cases Hb%pauli_char_cases.
  destruct Ha as [->|[->|[->| ->]]], Hb as [->|[->|[->| ->]]];
    vm_compute; auto.
Qed.

Lemma zip_str_pauli P Q :
  pauli_string P = true → pauli_string Q = true → pauli_pairs (zip_str P Q).
Proof.
  revert Q. induction P as [|a P IH]; intros [|b Q]; simpl;
    try (intros; constructor; fail).
  intros [Ha HP]%andb_true_iff [Hb HQ]%andb_true_iff.
  constructor; [done | by apply IH].
Qed.

Lemma zip_str_length P Q :
  String.length P = String.length Q →
  length (zip_str P Q) = String.length P.
Proof.
  revert Q. induction P as [|a P IH]; intros [|b Q]; simpl; try done.
  intros [=]. f_equal. by apply IH.
Qed.

Lemma join_length cs : String.length (join cs) = length cs.
Proof. induction cs as [|c cs IH]; simpl; [done | by rewrite IH]. Qed.

Lemma join_app cs ds : join (cs ++ ds) = (join cs ++ join ds)%string.
Proof. induction cs as [|c cs IH]; simpl; [done | by rewrite IH]. Qed.

(** The loop, started from any state, in closed form. *)
Lemma multiply_loop_spec ps e0 out :
  pauli_pairs ps → 0 ≤ e0 < 4 →
  multiply_loop ps e0 out =
    Ok ((e0 + phase_sum ps) mod 4,
        out ++ map (λ ab, (table_spec ab.1 ab.2).2) ps).
Proof.
  intros Hps. revert e0 out.
  induction Hps as [|[a b] ps [Ha Hb] _ IH]; intros e0 out He0;
    cbn [multiply_loop phase_sum map fst snd].
  - rewrite Z.add_0_r, app_nil_r, Z.mod_small; [reflexivity | lia].
  - rewrite single_mult_table by assumption.
    destruct (table_spec a b) as [e r] eqn:Et. cbn [fst snd].
    rewrite IH by (apply Z.mod_pos_bound; lia).
    rewrite Zplus_mod_idemp_l, Z.add_assoc, <- app_assoc. reflexivity.
Qed.

Lemma total_exponent_range P Q : 0 ≤ total_exponent P Q < 4.
Proof. unfold total_exponent. apply Z.mod_pos_bound. lia. Qed.

(** [multiply_pauli] on well-formed inputs, by the value of the total
    exponent. *)
Lemma multiply_pauli_cases sp sq P Q :
  pauli_string P = true → pauli_string Q = true →
  String.length P = String.length Q →
  multiply_pauli (sp, P) (sq, Q) =
    if decide (total_exponent P Q mod 2 ≠ 0) then
      Raise ValueError_NonHermitianPhase
    else
      Ok (sp * sq * (if decide (total_exponent P Q = 0) then 1 else -1),
          product_string P Q).
Proof.
  intros HP HQ Hlen. unfold multiply_pauli.
  rewrite decide_True by assumption.
  rewrite multiply_loop_spec by (auto using zip_str_pauli; lia).
  rewrite Z.add_0_l, app_nil_l. reflexivity.
Qed.



(** C4: on equal-length strings over the alphabet, [multiply_pauli] raises
    the non-Hermitian-phase error exactly when the exponent accumulated
    over all positions is odd (1 or 3); with an odd total it raises and
    returns no result. *)
Theorem multiply_pauli_non_hermitian_iff sp sq P Q :
  pauli_string P = true → pauli_string Q = true →
  String.length P = String.length Q →
  (multiply_pauli (sp, P) (sq, Q) = Raise ValueError_NonHermitianPhase
   ↔ total_exponent P Q = 1 ∨ total_exponent P Q = 3) ∧
  (total_exponent P Q = 1 ∨ total_exponent P Q = 3 →
   is_ok (multiply_pauli (sp, P) (sq, Q)) = false).
Proof.
  intros HP HQ Hlen. rewrite multiply_pauli_cases by assumption.
  pose proof (total_exponent_range P Q) as Hr.
  assert (total_exponent P Q = 0 ∨ total_exponent P Q = 1 ∨
          total_exponent P Q = 2 ∨ total_exponent P Q = 3) as Hc by lia.
  destruct Hc as [-> | [-> | [-> | ->]]]; cbn; split;
    (split || idtac); intros; try reflexivity; try discriminate; try lia;
    auto.
Qed.

Lemma multiply_pauli_non_hermitian_iff_witness :
  multiply_pauli (1, "XI"%string) (1, "YI"%string)
  = Raise ValueError_NonHermitianPhase.
Proof.
  pose proof (multiply_pauli_non_hermitian_iff 1 1 "XI" "YI"
                eq_refl eq_refl eq_refl) as [[_ H] _].
  apply H. left. reflexivity.
Defined.

(** *** Commutation test *)

Lemma anti_pairs_sym a b : (a, b) ∈ anti_pairs ↔ (b, a) ∈ anti_pairs.
Proof.
  unfold anti_pairs. rewrite !elem_of_union, !elem_of_singleton.
  split; intros H; repeat destruct H as [H | H];
    injection H as -> ->; tauto.
Qed.

Lemma anti_at_sym a b : anti_at a b = anti_at b a.
Proof.
  unfold anti_at.
  rewrite (bool_decide_ext _ _ (anti_pairs_sym a b)).
  rewrite (bool_decide_ext (a ≠ b) (b ≠ a)) by (split; congruence).
  destruct (bool_decide (a ≠ chI)), (bool_decide (b ≠ chI)); reflexivity.
Qed.

Lemma anti_at_refl a : anti_at a a = false.
Proof.
  unfold anti_at. rewrite (bool_decide_eq_false_2 (a ≠ a)) by auto.
  rewrite andb_false_r. reflexivity.
Qed.

Lemma zip_str_swap P Q :
  zip_str Q P = map (λ ab, (ab.2, ab.1)) (zip_str P Q).
Proof.
  revert Q. induction P as [|a P IH]; intros [|b Q]; simpl; try reflexivity.
  by rewrite IH.
Qed.

Lemma anticommutes_loop_swap ps parity :
  anticommutes_loop (map (λ ab, (ab.2, ab.1)) ps) parity
  = anticommutes_loop ps parity.
Proof.
  revert parity. induction ps as [|[a b] ps IH]; intros parity; simpl.
  - reflexivity.
  - rewrite (anti_at_sym b a). destruct (anti_at a b); apply IH.
Qed.

(** C9: the commutation test is symmetric; this holds for any two
    strings, in particular for equal-length strings over the alphabet
    (on strings of different lengths both calls raise the same assertion
    error). *)
Theorem anticommutes_sym (P Q : string) :
  anticommutes P Q = anticommutes Q P.
Proof.
  unfold anticommutes.
  destruct (decide (String.length P = String.length Q)) as [Hl | Hl].
  - rewrite decide_True by congruence.
    rewrite (zip_str_swap P Q), anticommutes_loop_swap. reflexivity.
  - rewrite decide_False by congruence. reflexivity.
Qed.

Lemma anticommutes_loop_diag P parity :
  anticommutes_loop (zip_str P P) parity = parity.
Proof.
  revert parity. induction P as [|a P IH]; intros parity; simpl.
  - reflexivity.
  - rewrite anti_at_refl. apply IH.
Qed.

(** C10: every string, whatever its characters and length, commutes with
    itself: [anticommutes P P] returns [False]. *)
Theorem anticommutes_self (P : string) :
  anticommutes P P = Ok false.
Proof.
  unfold anticommutes. rewrite decide_True by reflexivity.
  rewrite anticommutes_loop_diag. reflexivity.
Qed.

(** *** Phase parity and commutation *)

(** A position contributes an odd exponent exactly when its two symbols
    anticommute. *)
Lemma table_spec_parity a b :
  pauli_char a = true → pauli_char b = true →
  (table_spec a b).1 mod 2 = if anti_at a b then 1 else 0.
Proof.
  intros Ha%pauli_char_cases Hb%pauli_char_cases.
  destruct Ha as [->|[->|[->| ->]]], Hb as [->|[->|[->| ->]]];
    vm_compute; reflexivity.
Qed.

Lemma anticommutes_loop_phase ps parity :
  pauli_pairs ps → parity = 0 ∨ parity = 1 →
  anticommutes_loop ps parity = (parity + phase_sum ps) mod 2.
Proof.
  intros Hps. revert parity.
  induction Hps as [|[a b] ps [Ha Hb] _ IH]; intros parity Hpar;
    cbn [anticommutes_loop phase_sum fst snd].
  - destruct Hpar as [-> | ->]; reflexivity.
  - pose proof (table_spec_parity a b Ha Hb) as Hpty.
    destruct (anti_at a b).
    + destruct Hpar as [-> | ->];
        [change (Z.lxor 0 1) with 1 | change (Z.lxor 1 1) with 0];
        rewrite IH by auto; Z.div_mod_to_equations; lia.
    + rewrite IH by assumption. Z.div_mod_to_equations; lia.
Qed.

Lemma anticommutes_total_exponent P Q :
  pauli_string P = true → pauli_string Q = true →
  String.length P = String.length Q →
  anticommutes P Q = Ok (bool_decide (total_exponent P Q mod 2 ≠ 0)).
Proof.
  intros HP HQ Hlen. unfold anticommutes, total_exponent.
  rewrite decide_True by assumption.
  rewrite anticommutes_loop_phase by (auto using zip_str_pauli).
  rewrite Z.add_0_l. f_equal.
  case_bool_decide; [apply Z.eqb_eq | apply Z.eqb_neq];
    Z.div_mod_to_equations; lia.
Qed.

Lemma product_string_length P Q :
  String.length P = String.length Q →
  String.length (product_string P Q) = String.length P.
Proof.
  intros Hlen. unfold product_string.
  by rewrite join_length, length_map, zip_str_length.
Qed.

Lemma product_string_pauli P Q :
  pauli_string P = true → pauli_string Q = true →
  pauli_string (product_string P Q) = true.
Proof.
  intros HP HQ. unfold product_string.
  induction (zip_str_pauli P Q HP HQ) as [|[a b] ps [Ha Hb] _ IH];
    cbn [map join pauli_string fst snd]; [reflexivity |].
  rewrite IH, (proj2 (table_spec_range a b Ha Hb)). reflexivity.
Qed.

(** C5, as the code has it: for valid Hermitian Pauli operators [p] and
    [q] of equal length [n], [multiply_pauli p q] succeeds when the two
    strings commute, and then returns a sign in {+1,-1} and a string of
    length [n] over the alphabet; when the two strings anticommute it
    raises the non-Hermitian-phase error. *)
Theorem multiply_pauli_closure_commuting (p q : gen) (n : nat) :
  valid_gen p = true → valid_gen q = true →
  String.length p.2 = n → String.length q.2 = n →
  (anticommutes p.2 q.2 = Ok false →
   ∃ s R, multiply_pauli p q = Ok (s, R) ∧ (s = 1 ∨ s = -1) ∧
          String.length R = n ∧ pauli_string R = true) ∧
  (anticommutes p.2 q.2 = Ok true →
   multiply_pauli p q = Raise ValueError_NonHermitianPhase).
Proof.
  destruct p as [sp P], q as [sq Q]. unfold valid_gen. cbn [fst snd].
  intros [Hsp%bool_decide_eq_true HP]%andb_true_iff
         [Hsq%bool_decide_eq_true HQ]%andb_true_iff HnP HnQ.
  assert (String.length P = String.length Q) as Hlen by congruence.
  rewrite anticommutes_total_exponent, multiply_pauli_cases by assumption.
  split; intros [= Hb].
  - apply bool_decide_eq_false in Hb.
    rewrite decide_False by assumption.
    eexists _, _. split; [reflexivity |]. split; [| split].
    + destruct (decide (total_exponent P Q = 0)); lia.
    + by rewrite product_string_length.
    + by apply product_string_pauli.
  - apply bool_decide_eq_true in Hb.
    rewrite decide_True by assumption. reflexivity.
Qed.

Lemma multiply_pauli_closure_commuting_witness :
  ∃ s R, multiply_pauli (1, "XX"%string) (-1, "ZZ"%string) = Ok (s, R) ∧
         (s = 1 ∨ s = -1) ∧ String.length R = 2%nat ∧
         pauli_string R = true.
Proof.
  apply (multiply_pauli_closure_commuting (1, "XX"%string) (-1, "ZZ"%string)
           2 eq_refl eq_refl eq_refl eq_refl).
  reflexivity.
Defined.

(** C5 as stated fails: [X] and [Y] are valid Hermitian operators of equal
    length, and their product raises. *)
Lemma multiply_pauli_closure_counterexample :
  ¬ (∀ p q : gen,
       valid_gen p = true → valid_gen q = true →
       String.length p.2 = String.length q.2 →
       ∃ s R, multiply_pauli p q = Ok (s, R) ∧ (s = 1 ∨ s = -1) ∧
              String.length R = String.length p.2).
Proof.
  intros H.
  destruct (H (1, "X"%string) (1, "Y"%string) eq_refl eq_refl eq_refl)
    as (s & R & Hm & _).
  vm_compute in Hm. discriminate Hm.
Qed.

(** *** Commutation of products *)

Lemma anticommutes_loop_odd ps parity :
  parity = 0 ∨ parity = 1 →
  anticommutes_loop ps parity
  = Z.b2z (xorb (parity =? 1) (odd_anti ps)).
Proof.
  revert parity. induction ps as [|[a b] ps IH]; intros parity Hpar;
    cbn [anticommutes_loop odd_anti].
  - destruct Hpar as [-> | ->]; reflexivity.
  - destruct (anti_at a b).
    + destruct Hpar as [-> | ->];
        [change (Z.lxor 0 1) with 1 | change (Z.lxor 1 1) with 0];
        rewrite IH by auto; by destruct (odd_anti ps).
    + rewrite IH by assumption. by destruct (parity =? 1), (odd_anti ps).
Qed.

Lemma anticommutes_odd P Q :
  String.length P = String.length Q →
  anticommutes P Q = Ok (odd_anti (zip_str P Q)).
Proof.
  intros Hlen. unfold anticommutes. rewrite decide_True by assumption.
  rewrite anticommutes_loop_odd by auto.
  by destruct (odd_anti (zip_str P Q)).
Qed.

Lemma odd_anti_swap P Q :
  odd_anti (zip_str Q P) = odd_anti (zip_str P Q).
Proof.
  revert Q. induction P as [|a P IH]; intros [|b Q]; cbn; try reflexivity.
  by rewrite IH, (anti_at_sym b a).
Qed.

Lemma odd_anti_diag P : odd_anti (zip_str P P) = false.
Proof.
  induction P as [|a P IH]; cbn; [reflexivity |].
  by rewrite IH, anti_at_refl.
Qed.

Lemma anti_at_table a b c :
  pauli_char a = true → pauli_char b = true → pauli_char c = true →
  anti_at (table_spec a b).2 c = xorb (anti_at a c) (anti_at b c).
Proof.
  intros Ha%pauli_char_cases Hb%pauli_char_cases Hc%pauli_char_cases.
  destruct Ha as [->|[->|[->| ->]]], Hb as [->|[->|[->| ->]]],
    Hc as [->|[->|[->| ->]]]; vm_compute; reflexivity.
Qed.

Lemma odd_anti_product n A B C :
  pauli_n n A → pauli_n n B → pauli_n n C →
  odd_anti (zip_str (product_string A B) C)
  = xorb (odd_anti (zip_str A C)) (odd_anti (zip_str B C)).
Proof.
  unfold product_string.
  revert n B C. induction A as [|a A IH]; intros n [|b B] [|c C];
    intros [HA HnA] [HB HnB] [HC HnC]; cbn in *; try reflexivity;
    try congruence.
  apply andb_true_iff in HA as [Ha HA].
  apply andb_true_iff in HB as [Hb HB].
  apply andb_true_iff in HC as [Hc HC].
  rewrite (anti_at_table a b c Ha Hb Hc).
  rewrite (IH (String.length A) B C) by (split; congruence).
  by destruct (anti_at a c), (anti_at b c), (odd_anti (zip_str A C)),
    (odd_anti (zip_str B C)).
Qed.

Lemma product_string_pauli_n n P Q :
  pauli_n n P → pauli_n n Q → pauli_n n (product_string P Q).
Proof.
  intros [HP HnP] [HQ HnQ]. split.
  - by apply product_string_pauli.
  - rewrite product_string_length; congruence.
Qed.

(** Two commuting Pauli strings of equal length have a product. *)
Lemma multiply_pauli_commuting n sp sq P Q :
  pauli_n n P → pauli_n n Q →
  anticommutes P Q = Ok false →
  ∃ s, multiply_pauli (sp, P) (sq, Q) = Ok (s, product_string P Q).
Proof.
  intros [HP HnP] [HQ HnQ] Hc.
  assert (String.length P = String.length Q) as Hlen by congruence.
  rewrite anticommutes_total_exponent in Hc by assumption.
  injection Hc as Hc. apply bool_decide_eq_false in Hc.
  rewrite multiply_pauli_cases by assumption.
  rewrite decide_False by assumption. eauto.
Qed.

End pauli_algebra.

(** * Properties of the resource updater *)

Section updater.

Implicit Types (h : heap) (g l : loc) (gs cur : list gen) (M : string).

(** *** What a run does to the store *)

(** The inner loop writes only the list at [gens] and keeps its length,
    whether it ends normally or by an exception. *)
Lemma multiply_others_effect g old js h cur r h' :
  h !! g = Some cur →
  multiply_others g old js h = (r, h') →
  (∀ l, l ≠ g → h' !! l = h !! l) ∧
  ∃ cur', h' !! g = Some cur' ∧ length cur' = length cur.
Proof.
  revert h cur. induction js as [|j js IH]; intros h cur Hg Hrun.
  - injection Hrun as <- <-. eauto.
  - cbn [multiply_others] in Hrun. py_unfold. rewrite Hg in Hrun.
    destruct (cur !! j) as [gj|]; [| injection Hrun as <- <-; eauto].
    destruct (multiply_pauli gj old) as [x|e];
      [| injection Hrun as <- <-; eauto].
    rewrite Hg in Hrun.
    destruct (decide (j < length cur)%nat) as [Hj | Hj];
      [| injection Hrun as <- <-; eauto].
    apply (IH _ (<[j:=x]> cur)) in Hrun as [Hfr (cur' & Hg' & Hlen)];
      [| by rewrite lookup_insert_eq].
    split.
    + intros l Hl. rewrite Hfr by assumption. by rewrite lookup_insert_ne.
    + exists cur'. split; [assumption |]. by rewrite Hlen, length_insert.
Qed.

(** One measurement writes only the list at [gens]; the list never gets
    shorter, and when the step ends normally it has grown by one in Case A
    and kept its length otherwise. *)
Lemma measure_effect n outs g M h gs r h' :
  h !! g = Some gs →
  measure n outs g M h = (r, h') →
  (∀ l, l ≠ g → h' !! l = h !! l) ∧
  ∃ gs', h' !! g = Some gs' ∧ (length gs ≤ length gs')%nat ∧
    (r = Ok tt →
     length gs' = (length gs + if case_A g M h then 1 else 0)%nat).
Proof.
  intros Hg Hrun. unfold measure in Hrun. unfold case_A. rewrite Hg.
  destruct (decide (String.length M ≠ n)) as [Hn | Hn].
  { injection Hrun as <- <-. split; [done |]. exists gs. by repeat split. }
  unfold bind at 1, list_read in Hrun. rewrite Hg in Hrun.
  unfold bind at 1, lift in Hrun.
  destruct (anti_idx_from 0 gs M) as [[|p rest]|e].
  - py_unfold. rewrite Hg in Hrun. injection Hrun as <- <-. split.
    + intros l Hl. by rewrite lookup_insert_ne.
    + exists (gs ++ [(default 1 (outs !! M), M)]).
      rewrite lookup_insert_eq, length_app. cbn. repeat split; lia.
  - unfold bind at 1, list_getitem in Hrun. rewrite Hg in Hrun.
    destruct (gs !! p) as [old|].
    2:{ injection Hrun as <- <-. split; [done |]. exists gs.
        repeat split; try done. }
    unfold bind at 1, list_setitem in Hrun. rewrite Hg in Hrun.
    destruct (decide (p < length gs)%nat) as [Hp | Hp].
    2:{ injection Hrun as <- <-. split; [done |]. exists gs.
        repeat split; try done. }
    eapply multiply_others_effect in Hrun as [Hfr (cur' & Hg' & Hlen)];
      [| by rewrite lookup_insert_eq].
    rewrite length_insert in Hlen. split.
    + intros l Hl. rewrite Hfr by assumption. by rewrite lookup_insert_ne.
    + exists cur'. repeat split; try done; lia.
  - injection Hrun as <- <-. split; [done |]. exists gs.
    repeat split; try done.
Qed.

Lemma measure_all_app n outs g ms1 ms2 h :
  measure_all n outs g (ms1 ++ ms2) h =
    match measure_all n outs g ms1 h with
    | (Ok _, h1) => measure_all n outs g ms2 h1
    | (Raise e, h1) => (Raise e, h1)
    end.
Proof.
  revert h. induction ms1 as [|M ms1 IH]; intros h.
  - reflexivity.
  - cbn [app measure_all]. unfold bind.
    destruct (measure n outs g M h) as [[u|e] h1]; [apply IH | reflexivity].
Qed.

Lemma measure_all_effect n outs g ms h gs r h' :
  h !! g = Some gs →
  measure_all n outs g ms h = (r, h') →
  (∀ l, l ≠ g → h' !! l = h !! l) ∧
  ∃ gs', h' !! g = Some gs' ∧ (length gs ≤ length gs')%nat ∧
    (r = Ok tt →
     length gs' = (length gs + case_A_count n outs g ms h)%nat).
Proof.
  revert h gs. induction ms as [|M ms IH]; intros h gs Hg Hrun.
  - injection Hrun as <- <-. split; [done |]. exists gs. cbn.
    repeat split; try done; lia.
  - cbn [measure_all case_A_count] in *. unfold bind in Hrun.
    destruct (measure n outs g M h) as [r1 h1] eqn:E1.
    destruct (measure_effect _ _ _ _ _ _ _ _ Hg E1)
      as [Hfr1 (gs1 & Hg1 & Hle1 & Hlen1)].
    destruct r1 as [[]|e].
    + destruct (IH _ _ Hg1 Hrun) as [Hfr (gs' & Hg' & Hle & Hlen)].
      split.
      * intros l Hl. by rewrite Hfr, Hfr1.
      * exists gs'. repeat split; [done | lia |].
        intros Hr. rewrite (Hlen Hr), (Hlen1 eq_refl). cbn [snd]. lia.
    + injection Hrun as <- <-. split; [done |]. exists gs1.
      repeat split; try done.
Qed.

(** The call, once the caller's list is known: the working list is a new
    object, and the loop runs on it. *)
Lemma update_unfold l ms outs h gs0 :
  h !! l = Some gs0 →
  update_resource_with_fusions l ms outs h =
    let g := fresh (dom h) in
    match measure_all (qubit_count gs0 ms) (default ∅ outs) g ms
            (<[g := gs0]> h) with
    | (Ok _, h') => (Ok g, h')
    | (Raise e, h') => (Raise e, h')
    end.
Proof.
  intros Hl. unfold update_resource_with_fusions.
  unfold bind at 1, list_copy. rewrite Hl.
  unfold bind at 1, list_read. rewrite lookup_insert_eq.
  unfold bind, ret. cbn zeta.
  destruct (measure_all _ _ _ _ _) as [[u|e] h']; reflexivity.
Qed.

Lemma fresh_loc_ne l h gs0 : h !! l = Some gs0 → l ≠ fresh (dom h).
Proof.
  intros Hl ->. apply (is_fresh (dom h)). apply elem_of_dom. eauto.
Qed.

(** *** List length *)


(** *** Case A *)

Lemma anti_idx_from_nil j gs M :
  (∀ i x, gs !! i = Some x → anticommutes x.2 M = Ok false) →
  anti_idx_from j gs M = Ok [].
Proof.
  revert j. induction gs as [|[sg G] gs IH]; intros j Hall.
  - reflexivity.
  - cbn [anti_idx_from].
    pose proof (Hall 0%nat (sg, G) eq_refl) as H0. cbn [snd] in H0.
    rewrite H0, IH; [reflexivity |].
    intros i x Hi. exact (Hall (S i) x Hi).
Qed.

Lemma measure_case_A_run n outs g M h gs :
  h !! g = Some gs →
  String.length M = n →
  anti_idx_from 0 gs M = Ok [] →
  measure n outs g M h
  = (Ok tt, <[g := gs ++ [(default 1 (outs !! M), M)]]> h).
Proof.
  intros Hg Hn Eidx.
  unfold measure. rewrite decide_False by (intros Hne; by apply Hne).
  unfold bind at 1, list_read. rewrite Hg.
  unfold bind, lift. rewrite Eidx.
  unfold list_append. by rewrite Hg.
Qed.

(** C7: when [M] (of the right length) anticommutes with no generator of
    the current list, the step appends the entry [(outcome, M)] at the
    end, with [outcome] the dictionary's value for [M] or [+1] when [M] is
    not a key, and every earlier entry stays at its index unchanged. *)
Theorem measure_case_A_appends n outs g M h gs :
  h !! g = Some gs →
  String.length M = n →
  (∀ i x, gs !! i = Some x → anticommutes x.2 M = Ok false) →
  let outcome := match outs !! M with Some v => v | None => 1 end in
  measure n outs g M h = (Ok tt, <[g := gs ++ [(outcome, M)]]> h) ∧
  (∀ i x, gs !! i = Some x → (gs ++ [(outcome, M)]) !! i = Some x) ∧
  (gs ++ [(outcome, M)]) !! length gs = Some (outcome, M) ∧
  length (gs ++ [(outcome, M)]) = S (length gs).
Proof.
  intros Hg Hn Hall outcome. split; [| split; [| split]].
  - rewrite (measure_case_A_run n outs g M h gs Hg Hn
               (anti_idx_from_nil _ _ _ Hall)).
    unfold outcome, default. destruct (outs !! M); reflexivity.
  - intros i x Hi. by apply lookup_app_l_Some.
  - by rewrite lookup_app_r, Nat.sub_diag.
  - rewrite length_app. cbn. lia.
Qed.

Lemma measure_case_A_appends_witness :
  measure 2 ∅ 1%positive "ZZ" {[ 1%positive := [(1, "XX"%string)] ]}
  = (Ok tt, <[ 1%positive := [(1, "XX"%string)] ++ [(1, "ZZ"%string)] ]>
              {[ 1%positive := [(1, "XX"%string)] ]}).
Proof.
  refine (proj1 (measure_case_A_appends 2 ∅ 1%positive "ZZ"
                   {[ 1%positive := [(1, "XX"%string)] ]}
                   [(1, "XX"%string)] _ _ _)).
  - reflexivity.
  - reflexivity.
  - intros [|[|i]] x [= <-]. reflexivity.
Defined.

(** *** Case B *)

(** When every commutation test succeeds, the comprehension returns the
    anticommuting indices, each once, in increasing order. *)
Lemma anti_idx_from_spec j gs M :
  (∀ i x, gs !! i = Some x → is_ok (anticommutes x.2 M) = true) →
  ∃ js, anti_idx_from j gs M = Ok js ∧
    (∀ k, k ∈ js ↔
          ∃ i x, k = (j + i)%nat ∧ gs !! i = Some x ∧
                 anticommutes x.2 M = Ok true) ∧
    StronglySorted lt js.
Proof.
  revert j. induction gs as [|[sg G] gs IH]; intros j Hall.
  - exists []. split; [reflexivity |]. split; [| constructor].
    intros k. split; [by intros ?%elem_of_nil |].
    intros (i & x & _ & Hi & _). by rewrite lookup_nil in Hi.
  - cbn [anti_idx_from].
    pose proof (Hall 0%nat (sg, G) eq_refl) as H0. cbn [snd] in H0.
    destruct (anticommutes G M) as [b|e] eqn:Eb; [| discriminate H0].
    destruct (IH (S j) (λ i x Hi, Hall (S i) x Hi))
      as (js & -> & Hmem & Hsort).
    assert (Forall (lt j) js) as Hlt.
    { apply Forall_forall. intros k (i & x & -> & _)%Hmem. lia. }
    destruct b.
    + exists (j :: js). split; [reflexivity |]. split; [| by constructor].
      intros k. rewrite elem_of_cons, Hmem. split.
      * intros [-> | (i & x & -> & Hi & Hx)].
        -- exists 0%nat, (sg, G). rewrite Nat.add_0_r. by repeat split.
        -- exists (S i), x. repeat split; [lia | done | done].
      * intros ([|i] & x & -> & Hi & Hx).
        -- left. lia.
        -- right. exists i, x. repeat split; [lia | done | done].
    + exists js. split; [reflexivity |]. split; [| assumption].
      intros k. rewrite Hmem. split.
      * intros (i & x & -> & Hi & Hx).
        exists (S i), x. repeat split; [lia | done | done].
      * intros ([|i] & x & -> & Hi & Hx).
        -- injection Hi as <-. cbn [snd] in Hx. congruence.
        -- exists i, x. repeat split; [lia | done | done].
Qed.

(** The inner loop, when every product succeeds: the entries at the
    indices of [js] become the products with [old], all others stay. *)
Lemma multiply_others_ok g old js h cur :
  h !! g = Some cur →
  NoDup js →
  (∀ j, j ∈ js → ∃ x r, cur !! j = Some x ∧ multiply_pauli x old = Ok r) →
  ∃ cur', multiply_others g old js h = (Ok tt, <[g := cur']> h) ∧
    length cur' = length cur ∧
    (∀ j x, j ∈ js → cur !! j = Some x →
            ∃ r, multiply_pauli x old = Ok r ∧ cur' !! j = Some r) ∧
    (∀ k, k ∉ js → cur' !! k = cur !! k).
Proof.
  revert h cur. induction js as [|j js IH]; intros h cur Hg Hnd Hmul.
  - exists cur. cbn [multiply_others]. unfold ret.
    rewrite insert_id by assumption. repeat split; try done.
    intros j x Hj. by apply elem_of_nil in Hj.
  - apply NoDup_cons in Hnd as [Hj Hnd].
    destruct (Hmul j) as (x & r & Hx & Hr); [by left |].
    pose proof (lookup_lt_Some _ _ _ Hx) as Hlt.
    destruct (IH (<[g := <[j := r]> cur]> h) (<[j := r]> cur))
      as (cur' & Hrun & Hlen & Hin & Hout); [by rewrite lookup_insert_eq | done | |].
    { intros j' Hj'. destruct (Hmul j') as (x' & r' & Hx' & Hr');
        [by right |].
      exists x', r'. split; [| done].
      rewrite list_lookup_insert_ne; [done |]. intros ->. done. }
    exists cur'. split; [| split; [| split]].
    + cbn [multiply_others]. unfold bind at 1, list_getitem.
      rewrite Hg, Hx. unfold bind at 1, lift. rewrite Hr.
      unfold bind at 1, list_setitem. rewrite Hg.
      rewrite decide_True by assumption.
      rewrite Hrun, insert_insert_eq. reflexivity.
    + by rewrite Hlen, length_insert.
    + intros j' x' [-> | Hj']%elem_of_cons Hx'.
      * assert (x' = x) as -> by congruence. exists r. split; [done |].
        rewrite (Hout j Hj). by apply list_lookup_insert_eq.
      * apply (Hin j' x' Hj').
        rewrite list_lookup_insert_ne; [done |]. intros ->. done.
    + intros k Hk. apply not_elem_of_cons in Hk as [Hkj Hk].
      rewrite (Hout k Hk). by rewrite list_lookup_insert_ne.
Qed.

Lemma sorted_lt_NoDup (js : list nat) : StronglySorted lt js → NoDup js.
Proof.
  induction 1 as [|j js _ IH Hlt]; constructor; [| assumption].
  intros Hj. rewrite Forall_forall in Hlt. specialize (Hlt j Hj). lia.
Qed.

(** The first anticommuting index heads the list of the comprehension. *)
Lemma anti_idx_first gs M p old :
  (∀ i x, gs !! i = Some x → is_ok (anticommutes x.2 M) = true) →
  gs !! p = Some old →
  anticommutes old.2 M = Ok true →
  (∀ i x, (i < p)%nat → gs !! i = Some x → anticommutes x.2 M = Ok false) →
  ∃ rest, anti_idx_from 0 gs M = Ok (p :: rest).
Proof.
  intros Hall Hp Hanti Hfirst.
  destruct (anti_idx_from_spec 0 gs M Hall) as (js & Ejs & Hmem & Hsort).
  assert (p ∈ js) as Hpjs by (apply Hmem; by exists p, old).
  destruct js as [|p' rest]; [by apply elem_of_nil in Hpjs |].
  apply StronglySorted_inv in Hsort as [Hsort Hlt].
  rewrite Forall_forall in Hlt.
  assert (p' ∈ p' :: rest) as (i & x & Hi & Hx & Hax)%Hmem by left.
  cbn in Hi. subst i. exists rest. rewrite Ejs. do 2 f_equal.
  destruct (decide (p' < p)%nat) as [Hlt' | Hge].
  - rewrite (Hfirst p' x Hlt' Hx) in Hax. discriminate Hax.
  - apply elem_of_cons in Hpjs as [-> | Hin]; [reflexivity |].
    specialize (Hlt p Hin). lia.
Qed.

(** The step in Case B, with pivot [p = anti_idx[0]], when every product
    succeeds. *)
Lemma measure_case_B_run n outs g M h gs p rest old :
  h !! g = Some gs →
  String.length M = n →
  (∀ i x, gs !! i = Some x → is_ok (anticommutes x.2 M) = true) →
  anti_idx_from 0 gs M = Ok (p :: rest) →
  gs !! p = Some old →
  (∀ j x, j ≠ p → gs !! j = Some x → anticommutes x.2 M = Ok true →
          is_ok (multiply_pauli x old) = true) →
  let outcome := match outs !! M with Some v => v | None => 1 end in
  ∃ gs',
    measure n outs g M h = (Ok tt, <[g := gs']> h) ∧
    length gs' = length gs ∧
    gs' !! p = Some (outcome, M) ∧
    (∀ j x, j ≠ p → gs !! j = Some x → anticommutes x.2 M = Ok true →
            ∃ r, multiply_pauli x old = Ok r ∧ gs' !! j = Some r) ∧
    (∀ j x, j ≠ p → gs !! j = Some x → anticommutes x.2 M = Ok false →
            gs' !! j = Some x).
Proof.
  intros Hg Hn Hall Ejs Hp Hmul outcome.
  destruct (anti_idx_from_spec 0 gs M Hall) as (js & Ejs' & Hmem & Hsort).
  rewrite Ejs in Ejs'. injection Ejs' as <-.
  apply StronglySorted_inv in Hsort as [Hsort Hlt].
  rewrite Forall_forall in Hlt.
  assert (p ∉ rest) as Hprest by (intros Hin; specialize (Hlt p Hin); lia).
  pose proof (sorted_lt_NoDup rest Hsort) as Hnd.
  pose proof (lookup_lt_Some _ _ _ Hp) as Hplt.
  set (new := (outcome, M)). set (cur := <[p := new]> gs).
  destruct (multiply_others_ok g old rest (<[g := cur]> h) cur)
    as (gs' & Hrun & Hlen & Hin & Hout);
    [by rewrite lookup_insert_eq | assumption | |].
  { intros j Hj.
    assert (j ∈ p :: rest) as (i & x & Hi & Hx & Hax)%Hmem by by right.
    cbn in Hi. subst i.
    assert (j ≠ p) as Hjp by (intros ->; done).
    specialize (Hmul j x Hjp Hx Hax).
    destruct (multiply_pauli x old) as [r|e] eqn:Er; [| discriminate Hmul].
    exists x, r. split; [| exact Er].
    unfold cur. by rewrite list_lookup_insert_ne. }
  exists gs'. split; [| split; [| split; [| split]]].
  - unfold measure. rewrite decide_False by (intros Hne; by apply Hne).
    unfold bind at 1, list_read. rewrite Hg.
    unfold bind at 1, lift. rewrite Ejs.
    unfold bind at 1, list_getitem. rewrite Hg, Hp.
    unfold bind at 1, list_setitem. rewrite Hg.
    rewrite decide_True by assumption.
    replace (default 1 (outs !! M), M) with new
      by (unfold new, outcome, default; by destruct (outs !! M)).
    fold cur. rewrite Hrun, insert_insert_eq. reflexivity.
  - unfold cur in Hlen. by rewrite Hlen, length_insert.
  - rewrite (Hout p Hprest). unfold cur. by apply list_lookup_insert_eq.
  - intros j x Hjp Hx Hax.
    assert (j ∈ p :: rest) as [-> | Hj]%elem_of_cons
      by (apply Hmem; by exists j, x); [done |].
    apply (Hin j x Hj). unfold cur. by rewrite list_lookup_insert_ne.
  - intros j x Hjp Hx Hax.
    assert (j ∉ rest) as Hj.
    { intros Hj.
      assert (j ∈ p :: rest) as (i & x' & Hi & Hx' & Hax')%Hmem by by right.
      cbn in Hi. subst i. congruence. }
    rewrite (Hout j Hj). unfold cur. by rewrite list_lookup_insert_ne.
Qed.

(** C2: when the current list has an anticommuting generator, the pivot
    the code takes ([anti_idx[0]]) is the first anticommuting index [p];
    the entry at [p] is overwritten with [(outcome, M)]; every other
    anticommuting entry becomes [multiply_pauli] of its current value and
    the value [old] that the pivot had before the overwrite; entries that
    commute with [M] stay as they are. (A product that raises ends the
    step with that exception; here every product is assumed to succeed.) *)
Theorem measure_case_B n outs g M h gs p old :
  h !! g = Some gs →
  String.length M = n →
  (∀ i x, gs !! i = Some x → is_ok (anticommutes x.2 M) = true) →
  gs !! p = Some old →
  anticommutes old.2 M = Ok true →
  (∀ i x, (i < p)%nat → gs !! i = Some x → anticommutes x.2 M = Ok false) →
  (∀ j x, j ≠ p → gs !! j = Some x → anticommutes x.2 M = Ok true →
          is_ok (multiply_pauli x old) = true) →
  let outcome := match outs !! M with Some v => v | None => 1 end in
  ∃ rest gs',
    anti_idx_from 0 gs M = Ok (p :: rest) ∧
    measure n outs g M h = (Ok tt, <[g := gs']> h) ∧
    length gs' = length gs ∧
    gs' !! p = Some (outcome, M) ∧
    (∀ j x, j ≠ p → gs !! j = Some x → anticommutes x.2 M = Ok true →
            ∃ r, multiply_pauli x old = Ok r ∧ gs' !! j = Some r) ∧
    (∀ j x, gs !! j = Some x → anticommutes x.2 M = Ok false →
            gs' !! j = Some x).
Proof.
  intros Hg Hn Hall Hp Hanti Hfirst Hmul outcome.
  destruct (anti_idx_first gs M p old Hall Hp Hanti Hfirst) as [rest Ejs].
  destruct (measure_case_B_run n outs g M h gs p rest old
              Hg Hn Hall Ejs Hp Hmul)
    as (gs' & Hrun & Hlen & Hpiv & Hanti' & Hcomm).
  exists rest, gs'. repeat split; try assumption.
  intros j x Hx Hax. apply (Hcomm j x); [| assumption | assumption].
  intros ->. congruence.
Qed.

Lemma measure_case_B_witness :
  ∃ rest gs',
    anti_idx_from 0 [(1, "XXX"%string); (1, "ZZI"%string); (1, "IZZ"%string)]
      "IXI" = Ok (1%nat :: rest) ∧
    measure 3 ∅ 1%positive "IXI"
      {[ 1%positive :=
           [(1, "XXX"%string); (1, "ZZI"%string); (1, "IZZ"%string)] ]}
    = (Ok tt,
       <[ 1%positive := gs' ]>
         {[ 1%positive :=
              [(1, "XXX"%string); (1, "ZZI"%string); (1, "IZZ"%string)] ]}) ∧
    gs' !! 1%nat = Some (1, "IXI"%string).
Proof.
  destruct (measure_case_B 3 ∅ 1%positive "IXI"
              {[ 1%positive :=
                   [(1, "XXX"%string); (1, "ZZI"%string);
                    (1, "IZZ"%string)] ]}
              [(1, "XXX"%string); (1, "ZZI"%string); (1, "IZZ"%string)]
              1%nat (1, "ZZI"%string))
    as (rest & gs' & Hidx & Hrun & _ & Hp & _).
  - reflexivity.
  - reflexivity.
  - intros [|[|[|i]]] x [= <-]; reflexivity.
  - reflexivity.
  - reflexivity.
  - intros [|i] x Hi; [intros [= <-]; reflexivity | lia].
  - intros [|[|[|i]]] x Hj [= <-] Ha;
      [discriminate Ha | congruence | reflexivity].
  - exists rest, gs'. auto.
Defined.

(** *** Stabilizer lists are preserved *)

(** One measurement on a stabilizer list raises nothing and leaves a
    stabilizer list. *)
Lemma measure_stabilizer n outs g M h gs :
  h !! g = Some gs →
  stabilizer_list n gs →
  pauli_n n M →
  ∃ gs', measure n outs g M h = (Ok tt, <[g := gs']> h) ∧
         stabilizer_list n gs'.
Proof.
  intros Hg [Hval Hcom] HM.
  assert (∀ P Q, pauli_n n P → pauli_n n Q →
                 anticommutes P Q = Ok (odd_anti (zip_str P Q))) as Hac.
  { intros P Q [_ HP] [_ HQ]. apply anticommutes_odd. congruence. }
  assert (∀ i x, gs !! i = Some x →
                 is_ok (anticommutes x.2 M) = true) as Hall.
  { intros i x Hx. by rewrite (Hac _ _ (Hval i x Hx) HM). }
  destruct (anti_idx_from_spec 0 gs M Hall) as (js & Ejs & Hmem & Hsort).
  destruct js as [|p rest].
  - (* Case A *)
    set (new := (default 1 (outs !! M), M)).
    assert (∀ i x, gs !! i = Some x → odd_anti (zip_str x.2 M) = false)
      as Hno.
    { intros i x Hx.
      destruct (odd_anti (zip_str x.2 M)) eqn:Eb; [| reflexivity].
      assert (i ∈ @nil nat) as Hin; [| by apply elem_of_nil in Hin].
      apply Hmem. exists i, x. rewrite (Hac _ _ (Hval i x Hx) HM), Eb.
      by repeat split. }
    exists (gs ++ [new]). split.
    { apply measure_case_A_run; [assumption | apply HM | assumption]. }
    assert (∀ i y, (gs ++ [new]) !! i = Some y →
                   (∃ x, gs !! i = Some x ∧ y = x) ∨ y = new) as Hcases.
    { intros i y Hy. apply lookup_app_Some in Hy as [Hy | [_ Hy]].
      - left. eauto.
      - right. apply list_lookup_singleton_Some in Hy as [_ <-]. done. }
    split.
    + intros i y [(x & Hx & ->) | ->]%Hcases; [by eapply Hval | exact HM].
    + intros i j y1 y2 [(x1 & Hx1 & ->) | ->]%Hcases
                       [(x2 & Hx2 & ->) | ->]%Hcases.
      * by eapply Hcom.
      * unfold new. cbn [snd]. rewrite (Hac _ _ (Hval _ _ Hx1) HM).
        by rewrite (Hno _ _ Hx1).
      * unfold new. cbn [snd]. rewrite (Hac _ _ HM (Hval _ _ Hx2)).
        by rewrite odd_anti_swap, (Hno _ _ Hx2).
      * unfold new. cbn [snd]. rewrite (Hac _ _ HM HM).
        by rewrite odd_anti_diag.
  - (* Case B *)
    assert (p ∈ p :: rest) as (i & old & Hi & Hp & Hanti)%Hmem by left.
    cbn in Hi. subst i.
    pose proof (Hval p old Hp) as Hold.
    assert (∀ j x, j ≠ p → gs !! j = Some x →
                   anticommutes x.2 M = Ok true →
                   is_ok (multiply_pauli x old) = true) as Hmul.
    { intros j [sx P] Hjp Hx _. destruct old as [so Q].
      destruct (multiply_pauli_commuting n sx so P Q) as [s ->];
        [exact (Hval j _ Hx) | exact Hold | exact (Hcom j p _ _ Hx Hp) |].
      reflexivity. }
    destruct (measure_case_B_run n outs g M h gs p rest old
                Hg (proj2 HM) Hall Ejs Hp Hmul)
      as (gs' & Hrun & Hlen & Hpiv & Hprod & Hsame).
    exists gs'. split; [assumption |].
    (* every new entry is [M], a product with [old], or an old entry *)
    assert (∀ i y, gs' !! i = Some y →
              ∃ x, gs !! i = Some x ∧
                (y.2 = M ∨
                 (odd_anti (zip_str x.2 M) = true ∧
                  y.2 = product_string x.2 old.2) ∨
                 (odd_anti (zip_str x.2 M) = false ∧ y.2 = x.2)))
      as Hkind.
    { intros i y Hy.
      assert (is_Some (gs !! i)) as [x Hx].
      { apply lookup_lt_is_Some. rewrite <- Hlen.
        by eapply lookup_lt_Some. }
      exists x. split; [assumption |].
      destruct (decide (i = p)) as [-> | Hip].
      { left. rewrite Hpiv in Hy. by injection Hy as <-. }
      pose proof (Hac _ _ (Hval i x Hx) HM) as Hxm.
      destruct (odd_anti (zip_str x.2 M)) eqn:Eb.
      - right. left. split; [reflexivity |].
        destruct (Hprod i x Hip Hx Hxm) as (r & Hr & Hr').
        assert (y = r) as -> by congruence.
        destruct x as [sx P], old as [so Q].
        destruct (multiply_pauli_commuting n sx so P Q) as [s Hs];
          [exact (Hval i _ Hx) | exact Hold | exact (Hcom i p _ _ Hx Hp) |].
        rewrite Hs in Hr. by injection Hr as <-.
      - right. right. split; [reflexivity |].
        rewrite (Hsame i x Hip Hx Hxm) in Hy. by injection Hy as <-. }
    assert (odd_anti (zip_str old.2 M) = true) as Hom.
    { rewrite (Hac _ _ Hold HM) in Hanti. by injection Hanti. }
    assert (∀ i j x y, gs !! i = Some x → gs !! j = Some y →
                       odd_anti (zip_str x.2 y.2) = false) as Hcom'.
    { intros i j x y Hx Hy. pose proof (Hcom i j x y Hx Hy) as Hc.
      rewrite (Hac _ _ (Hval _ _ Hx) (Hval _ _ Hy)) in Hc.
      by injection Hc. }
    assert (∀ i y, gs' !! i = Some y → pauli_n n y.2) as Hval'.
    { intros i y (x & Hx & [-> | [[_ ->] | [_ ->]]])%Hkind.
      - exact HM.
      - apply product_string_pauli_n; [by eapply Hval | exact Hold].
      - by eapply Hval. }
    split; [exact Hval' |].
    intros i j y1 y2 Hy1 Hy2.
    rewrite (Hac _ _ (Hval' _ _ Hy1) (Hval' _ _ Hy2)). f_equal.
    destruct (Hkind _ _ Hy1) as (x1 & Hx1 & K1).
    destruct (Hkind _ _ Hy2) as (x2 & Hx2 & K2).
    pose proof (Hval _ _ Hx1) as V1. pose proof (Hval _ _ Hx2) as V2.
    pose proof (product_string_pauli_n n _ _ V2 Hold) as V2'.
    destruct K1 as [-> | [[T1 ->] | [T1 ->]]],
             K2 as [-> | [[T2 ->] | [T2 ->]]].
    + apply odd_anti_diag.
    + rewrite odd_anti_swap, (odd_anti_product n) by assumption.
      by rewrite T2, Hom.
    + by rewrite odd_anti_swap.
    + rewrite (odd_anti_product n) by assumption. by rewrite T1, Hom.
    + rewrite (odd_anti_product n) by assumption.
      rewrite (odd_anti_swap _ x1.2), (odd_anti_swap _ old.2).
      rewrite !(odd_anti_product n) by assumption.
      by rewrite (Hcom' _ _ _ _ Hx2 Hx1), (Hcom' _ _ _ _ Hp Hx1),
        (Hcom' _ _ _ _ Hx2 Hp), (Hcom' _ _ _ _ Hp Hp).
    + rewrite (odd_anti_product n) by assumption.
      by rewrite (Hcom' _ _ _ _ Hx1 Hx2), (Hcom' _ _ _ _ Hp Hx2).
    + assumption.
    + rewrite odd_anti_swap, (odd_anti_product n) by assumption.
      by rewrite (Hcom' _ _ _ _ Hx2 Hx1), (Hcom' _ _ _ _ Hp Hx1).
    + by eapply Hcom'.
Qed.

(** A run of the loop on a stabilizer list, with measurements that are
    Pauli strings of [n] qubits, raises nothing. *)
Lemma measure_all_stabilizer n outs g ms h gs :
  h !! g = Some gs →
  stabilizer_list n gs →
  Forall (pauli_n n) ms →
  ∃ gs', measure_all n outs g ms h = (Ok tt, <[g := gs']> h) ∧
         stabilizer_list n gs'.
Proof.
  intros Hg Hst Hms. revert h gs Hg Hst.
  induction Hms as [|M ms HM _ IH]; intros h gs Hg Hst.
  - exists gs. cbn [measure_all]. unfold ret.
    by rewrite insert_id.
  - destruct (measure_stabilizer n outs g M h gs Hg Hst HM)
      as (gs1 & Hrun1 & Hst1).
    destruct (IH (<[g := gs1]> h) gs1) as (gs' & Hrun & Hst');
      [by rewrite lookup_insert_eq | assumption |].
    exists gs'. split; [| assumption].
    cbn [measure_all]. unfold bind. rewrite Hrun1, Hrun.
    by rewrite insert_insert_eq.
Qed.

(** A call on a stabilizer list, with measurements that are Pauli strings
    of the inferred number of qubits, returns, and returns a stabilizer
    list. *)
Lemma update_stabilizer l ms outs h gs0 :
  h !! l = Some gs0 →
  stabilizer_list (qubit_count gs0 ms) gs0 →
  Forall (pauli_n (qubit_count gs0 ms)) ms →
  ∃ gs', update_resource_with_fusions l ms outs h
         = (Ok (fresh (dom h)), <[fresh (dom h) := gs']> h) ∧
         stabilizer_list (qubit_count gs0 ms) gs'.
Proof.
  intros Hl Hst Hms. rewrite (update_unfold _ _ _ _ _ Hl). cbn zeta.
  destruct (measure_all_stabilizer (qubit_count gs0 ms) (default ∅ outs)
              (fresh (dom h)) ms (<[fresh (dom h) := gs0]> h) gs0)
    as (gs' & Hrun & Hst');
    [by rewrite lookup_insert_eq | assumption | assumption |].
  exists gs'. rewrite Hrun, insert_insert_eq. done.
Qed.

(** The generators of Scenario 1 form a stabilizer list on 3 qubits. *)
Example scenario1_resource_stabilizer :
  stabilizer_list 3 scenario1_resource.
Proof.
  unfold scenario1_resource. split.
  - intros [|[|[|i]]] x [= <-]; split; reflexivity.
  - intros [|[|[|i]]] [|[|[|j]]] x y [= <-] [= <-]; reflexivity.
Qed.

(** *** Measurement length *)

Lemma measure_mismatch n outs g M h :
  String.length M ≠ n →
  measure n outs g M h = (Raise ValueError_MeasurementLength, h).
Proof. intros Hn. unfold measure. by rewrite decide_True. Qed.

(** A measurement of the wrong length anywhere in the sequence makes the
    loop end by an exception. *)
Lemma measure_all_mismatch n outs g ms h :
  (∃ M, M ∈ ms ∧ String.length M ≠ n) →
  is_ok (measure_all n outs g ms h).1 = false.
Proof.
  revert h. induction ms as [|M0 ms IH]; intros h (M & Hin & Hn).
  - by apply elem_of_nil in Hin.
  - cbn [measure_all]. unfold bind.
    destruct (decide (String.length M0 = n)) as [Hn0 | Hn0].
    + destruct (measure n outs g M0 h) as [[[]|e] h1]; [| reflexivity].
      apply IH. exists M. split; [| assumption].
      apply elem_of_cons in Hin as [-> | Hin]; [done | assumption].
    + by rewrite measure_mismatch.
Qed.

(** C8, as the code has it: the caller's list is never written, whatever
    the outcome of the call; a measurement whose length differs from the
    inferred qubit count makes the call fail; and the failure is the
    measurement-length error, raised when that measurement is reached,
    provided the measurements before it were processed without an
    exception. That is so in particular when the generators form a
    stabilizer list on [n] qubits and the earlier measurements are Pauli
    strings of [n] qubits. *)
Theorem update_length_mismatch l ms outs h gs0 :
  h !! l = Some gs0 →
  let n := qubit_count gs0 ms in
  let o := default ∅ outs in
  let g := fresh (dom h) in
  (update_resource_with_fusions l ms outs h).2 !! l = Some gs0 ∧
  ((∃ M, M ∈ ms ∧ String.length M ≠ n) →
   is_ok (update_resource_with_fusions l ms outs h).1 = false) ∧
  (∀ pre M post hk,
     ms = pre ++ M :: post →
     String.length M ≠ n →
     measure_all n o g pre (<[g := gs0]> h) = (Ok tt, hk) →
     update_resource_with_fusions l ms outs h
     = (Raise ValueError_MeasurementLength, hk)) ∧
  (∀ pre M post,
     ms = pre ++ M :: post →
     String.length M ≠ n →
     stabilizer_list n gs0 →
     Forall (pauli_n n) pre →
     (update_resource_with_fusions l ms outs h).1
     = Raise ValueError_MeasurementLength).
Proof.
  intros Hl n o g. rewrite (update_unfold _ _ _ _ _ Hl). cbn zeta.
  fold n o g.
  assert (<[g := gs0]> h !! g = Some gs0) as Hg by apply lookup_insert_eq.
  assert (l ≠ g) as Hlg by (by eapply fresh_loc_ne).
  assert (∀ pre M post hk,
            ms = pre ++ M :: post →
            String.length M ≠ n →
            measure_all n o g pre (<[g := gs0]> h) = (Ok tt, hk) →
            measure_all n o g ms (<[g := gs0]> h)
            = (Raise ValueError_MeasurementLength, hk)) as Hreach.
  { intros pre M post hk Hms Hn Hpre.
    replace (measure_all n o g ms (<[g := gs0]> h))
      with (measure_all n o g (pre ++ M :: post) (<[g := gs0]> h))
      by (by rewrite Hms).
    rewrite measure_all_app, Hpre. cbn [measure_all]. unfold bind.
    by rewrite measure_mismatch. }
  split; [| split; [| split]].
  - destruct (measure_all n o g ms (<[g := gs0]> h)) as [r h'] eqn:Eall.
    destruct (measure_all_effect _ _ _ _ _ _ _ _ Hg Eall) as [Hfr _].
    assert (h' !! l = Some gs0) as Hl'
      by (rewrite (Hfr l Hlg); by rewrite lookup_insert_ne).
    destruct r as [[]|e]; exact Hl'.
  - intros Hbad.
    pose proof (measure_all_mismatch n o g ms (<[g := gs0]> h) Hbad) as Hf.
    destruct (measure_all n o g ms (<[g := gs0]> h)) as [[[]|e] h'];
      [discriminate Hf | reflexivity].
  - intros pre M post hk Hms Hn Hpre.
    by rewrite (Hreach pre M post hk Hms Hn Hpre).
  - intros pre M post Hms Hn Hst Hpre.
    destruct (measure_all_stabilizer n o g pre (<[g := gs0]> h) gs0
                Hg Hst Hpre) as (gs1 & Hrun & _).
    by rewrite (Hreach pre M post _ Hms Hn Hrun).
Qed.

Lemma update_length_mismatch_witness :
  update_resource_with_fusions 1%positive ["ZZ"%string] None
    {[ 1%positive := [(1, "XXX"%string)] ]}
  = (Raise ValueError_MeasurementLength,
     <[ 2%positive := [(1, "XXX"%string)] ]>
       {[ 1%positive := [(1, "XXX"%string)] ]}).
Proof.
  refine (proj1 (proj2 (proj2 (update_length_mismatch 1%positive
                                 ["ZZ"%string] None
                                 {[ 1%positive := [(1, "XXX"%string)] ]}
                                 [(1, "XXX"%string)] _)))
            [] "ZZ"%string [] _ _ _ _).
  - reflexivity.
  - reflexivity.
  - vm_compute. discriminate.
  - reflexivity.
Defined.

(** C8 as stated fails: with generators [X], [Y] and measurements [Z],
    [ZZ], the second measurement has the wrong length, but the call ends
    while processing the first one, by the non-Hermitian-phase error of
    the product of [Y] and [X]. *)
Lemma update_length_mismatch_counterexample :
  ¬ (∀ l ms outs (h : heap) gs0 M,
       h !! l = Some gs0 → M ∈ ms →
       String.length M ≠ qubit_count gs0 ms →
       (update_resource_with_fusions l ms outs h).1
       = Raise ValueError_MeasurementLength).
Proof.
  intros H.
  specialize (H 1%positive ["Z"%string; "ZZ"%string] None
                {[ 1%positive := [(1, "X"%string); (1, "Y"%string)] ]}
                [(1, "X"%string); (1, "Y"%string)] "ZZ"%string).
  assert ((update_resource_with_fusions 1%positive
             ["Z"%string; "ZZ"%string] None
             {[ 1%positive := [(1, "X"%string); (1, "Y"%string)] ]}).1
          = Raise ValueError_NonHermitianPhase) as Hrun
    by (vm_compute; reflexivity).
  rewrite Hrun in H. discriminate H.
  - reflexivity.
  - right. left.
  - vm_compute. discriminate.
Qed.


(** *** Scenario 1 *)

Lemma scenario1_eval :
  update_resource_with_fusions 1%positive scenario1_fusions
    (Some scenario1_outcomes) scenario1_store
  = (Ok 2%positive,
     <[ 2%positive :=
          [(-1, "IZI"%string); (1, "XII"%string); (1, "IZZ"%string)] ]>
       scenario1_store).
Proof. vm_compute. reflexivity. Qed.

(** C1, as the code has it: in the run of Scenario 1, ["XII"] commutes
    with ["XXX"] and ["IZZ"] and anticommutes with ["ZZI"] only, so it
    replaces generator 1 as [(+1,"XII")]; then ["IZI"] anticommutes with
    ["XXX"] only, so it replaces generator 0 as [(-1,"IZI")]; generator 2
    stays [(+1,"IZZ")]. The call returns the new list
    [[(-1,"IZI"); (+1,"XII"); (+1,"IZZ")]] and the caller's list is as
    before. *)
Theorem scenario1_run :
  update_resource_with_fusions 1%positive scenario1_fusions
    (Some scenario1_outcomes) scenario1_store
  = (Ok 2%positive,
     <[ 2%positive :=
          [(-1, "IZI"%string); (1, "XII"%string); (1, "IZZ"%string)] ]>
       scenario1_store)
  ∧ anti_idx_from 0 scenario1_resource "XII" = Ok [1%nat]
  ∧ anti_idx_from 0
      [(1, "XXX"%string); (1, "XII"%string); (1, "IZZ"%string)] "IZI"
    = Ok [0%nat]
  ∧ anticommutes "XXX" "XII" = Ok false.
Proof.
  split; [exact scenario1_eval |]. repeat split; vm_compute; reflexivity.
Qed.

(** C1 as stated fails: the returned list does not have [(+1,"XII")] at
    index 0, [(-1,"IZI")] at index 1 and the product of ["IZZ"] and
    ["ZZI"] at index 2. *)
Lemma scenario1_counterexample :
  ¬ (∃ g h' final prod,
       update_resource_with_fusions 1%positive scenario1_fusions
         (Some scenario1_outcomes) scenario1_store = (Ok g, h') ∧
       h' !! g = Some final ∧
       final !! 0%nat = Some (1, "XII"%string) ∧
       final !! 1%nat = Some (-1, "IZI"%string) ∧
       multiply_pauli (1, "IZZ"%string) (1, "ZZI"%string) = Ok prod ∧
       final !! 2%nat = Some prod).
Proof.
  intros (g & h' & final & prod & Hrun & Hg & H0 & _).
  rewrite scenario1_eval in Hrun. injection Hrun as <- <-.
  rewrite lookup_insert_eq in Hg. injection Hg as <-.
  discriminate H0.
Qed.

End updater.


(** * Further properties of the Pauli algebra *)

Section pauli_group.

(** *** Outcomes of [multiply_pauli] *)

Lemma single_mult_missing a b :
  bad_pair (a, b) = true → _SINGLE_MULT !! (a, b) = None.
Proof.
  intros Hbad. unfold _SINGLE_MULT. apply not_elem_of_list_to_map_1.
  intros Hin.
  assert (pauli_char a = true ∧ pauli_char b = true) as [Ha Hb].
  { apply list_elem_of_fmap in Hin as ([[a' b'] v] & [= -> ->] & Hin).
    repeat (apply elem_of_cons in Hin as [[= -> -> _] | Hin];
            [split; reflexivity |]).
    by apply elem_of_nil in Hin. }
  unfold bad_pair in Hbad. cbn [fst snd] in Hbad.
  rewrite Ha, Hb in Hbad. discriminate Hbad.
Qed.

Lemma multiply_loop_bad ps e out ab :
  find bad_pair ps = Some ab →
  multiply_loop ps e out = Raise (KeyError ab).
Proof.
  revert e out. induction ps as [|[a b] ps IH]; intros e out Hfind;
    cbn [find multiply_loop] in *; [discriminate Hfind |].
  destruct (bad_pair (a, b)) eqn:Eb.
  - injection Hfind as <-. by rewrite single_mult_missing.
  - apply negb_false_iff, andb_true_iff in Eb as [Ha Hb].
    cbn [fst snd] in Ha, Hb.
    rewrite single_mult_table by assumption.
    destruct (table_spec a b) as [e' r]. by apply IH.
Qed.

Lemma find_bad_none ps : find bad_pair ps = None ↔ pauli_pairs ps.
Proof.
  induction ps as [|[a b] ps IH]; cbn [find].
  - split; [constructor | reflexivity].
  - destruct (bad_pair (a, b)) eqn:Eb.
    + split; [discriminate |]. intros [[Ha Hb] _]%Forall_cons.
      unfold bad_pair in Eb. cbn [fst snd] in *.
      rewrite Ha, Hb in Eb. discriminate Eb.
    + apply negb_false_iff, andb_true_iff in Eb as [Ha Hb].
      rewrite IH. split; [by constructor | by intros [_ ?]%Forall_cons].
Qed.

Lemma zip_str_pauli_inv P Q :
  String.length P = String.length Q →
  pauli_pairs (zip_str P Q) →
  pauli_string P = true ∧ pauli_string Q = true.
Proof.
  revert Q. induction P as [|a P IH]; intros [|b Q] Hlen Hps;
    try discriminate Hlen; [done |].
  cbn in Hlen, Hps. injection Hlen as Hlen.
  apply Forall_cons in Hps as [[Ha Hb] Hps]. cbn [fst snd] in Ha, Hb.
  destruct (IH Q Hlen Hps) as [HP HQ]. cbn. by rewrite Ha, Hb, HP, HQ.
Qed.

Lemma multiply_pauli_closed_form sp sq P Q :
  multiply_pauli (sp, P) (sq, Q) =
    if decide (String.length P = String.length Q) then
      match find bad_pair (zip_str P Q) with
      | Some ab => Raise (KeyError ab)
      | None =>
          if decide (total_exponent P Q mod 2 ≠ 0) then
            Raise ValueError_NonHermitianPhase
          else
            Ok (sp * sq * (if decide (total_exponent P Q = 0) then 1 else -1),
                product_string P Q)
      end
    else Raise AssertionError_MismatchedLength.
Proof.
  destruct (decide (String.length P = String.length Q)) as [Hlen | Hlen].
  - destruct (find bad_pair (zip_str P Q)) as [ab|] eqn:Ef.
    + unfold multiply_pauli. rewrite decide_True by assumption.
      by rewrite (multiply_loop_bad _ _ _ _ Ef).
    + apply find_bad_none, (zip_str_pauli_inv _ _ Hlen) in Ef as [HP HQ].
      by apply multiply_pauli_cases.
  - unfold multiply_pauli. by rewrite decide_False.
Qed.


(** What a successful product says about its arguments. *)
Lemma multiply_pauli_ok_inv sp sq P Q s R :
  multiply_pauli (sp, P) (sq, Q) = Ok (s, R) →
  String.length P = String.length Q ∧
  pauli_string P = true ∧ pauli_string Q = true ∧
  total_exponent P Q mod 2 = 0 ∧
  s = sp * sq * (if decide (total_exponent P Q = 0) then 1 else -1) ∧
  R = product_string P Q.
Proof.
  rewrite multiply_pauli_closed_form.
  destruct (decide (String.length P = String.length Q)) as [Hlen | Hlen];
    [| discriminate].
  destruct (find bad_pair (zip_str P Q)) as [ab|] eqn:Ef; [discriminate |].
  apply find_bad_none, (zip_str_pauli_inv _ _ Hlen) in Ef as [HP HQ].
  destruct (decide (total_exponent P Q mod 2 ≠ 0)) as [Hodd | Hev];
    [discriminate |].
  intros [= <- <-]. repeat split; try assumption.
  destruct (decide (total_exponent P Q mod 2 = 0)); [assumption | done].
Qed.

(** [multiply_pauli] returns a product exactly when the two strings have
    equal length, are both over the alphabet, and commute; the product is
    then over the alphabet and of the same length. *)
Theorem multiply_pauli_ok_iff sp sq P Q :
  (is_ok (multiply_pauli (sp, P) (sq, Q)) = true ↔
   String.length P = String.length Q ∧
   pauli_string P = true ∧ pauli_string Q = true ∧
   anticommutes P Q = Ok false) ∧
  (∀ s R, multiply_pauli (sp, P) (sq, Q) = Ok (s, R) →
          pauli_string R = true ∧ String.length R = String.length P).
Proof.
  split.
  - split.
    + destruct (multiply_pauli (sp, P) (sq, Q)) as [[s R]|e] eqn:Em;
        [| discriminate].
      intros _.
      apply multiply_pauli_ok_inv in Em as (Hlen & HP & HQ & Hev & _).
      repeat split; try assumption.
      rewrite anticommutes_total_exponent by assumption.
      f_equal. apply bool_decide_eq_false. by intros Hodd.
    + intros (Hlen & HP & HQ & Hc).
      destruct (multiply_pauli_commuting (String.length P) sp sq P Q)
        as [s ->]; [by split | by split | assumption | reflexivity].
  - intros s R Em.
    apply multiply_pauli_ok_inv in Em as (Hlen & HP & HQ & _ & _ & ->).
    split; [by apply product_string_pauli | by apply product_string_length].
Qed.

(** *** Group laws *)

Lemma identity_string_length n : String.length (identity_string n) = n.
Proof. induction n as [|n IH]; cbn; [done | by rewrite IH]. Qed.

Lemma identity_string_pauli n : pauli_string (identity_string n) = true.
Proof. induction n as [|n IH]; cbn; [done | by rewrite IH]. Qed.

Lemma table_spec_I_l b : table_spec chI b = (0, b).
Proof. reflexivity. Qed.

Lemma table_spec_I_r a : table_spec a chI = (0, a).
Proof.
  unfold table_spec. destruct (decide (a = chI)) as [-> | Ha]; reflexivity.
Qed.

Lemma table_spec_diag a : table_spec a a = (0, chI).
Proof.
  unfold table_spec. destruct (decide (a = chI)) as [-> | Ha];
    [reflexivity |].
  by rewrite decide_True.
Qed.

Lemma identity_l_strings P :
  phase_sum (zip_str (identity_string (String.length P)) P) = 0 ∧
  product_string (identity_string (String.length P)) P = P.
Proof.
  unfold product_string. induction P as [|a P [IH1 IH2]];
    cbn [String.length identity_string zip_str phase_sum map join];
    [done |].
  cbn [fst snd]. rewrite !table_spec_I_l. cbn [fst snd]. by rewrite IH1, IH2.
Qed.

Lemma identity_r_strings P :
  phase_sum (zip_str P (identity_string (String.length P))) = 0 ∧
  product_string P (identity_string (String.length P)) = P.
Proof.
  unfold product_string. induction P as [|a P [IH1 IH2]];
    cbn [String.length identity_string zip_str phase_sum map join];
    [done |].
  cbn [fst snd]. rewrite !table_spec_I_r. cbn [fst snd]. by rewrite IH1, IH2.
Qed.

Lemma diag_strings P :
  phase_sum (zip_str P P) = 0 ∧
  product_string P P = identity_string (String.length P).
Proof.
  unfold product_string. induction P as [|a P [IH1 IH2]];
    cbn [String.length identity_string zip_str phase_sum map join];
    [done |].
  cbn [fst snd]. rewrite !table_spec_diag. cbn [fst snd]. by rewrite IH1, IH2.
Qed.

(** The operator [(+1, I^n)] is a left and right identity of
    [multiply_pauli] on operators whose string is over the alphabet and
    has length [n]. *)
Theorem multiply_pauli_identity s P :
  pauli_string P = true →
  multiply_pauli (1, identity_string (String.length P)) (s, P) = Ok (s, P) ∧
  multiply_pauli (s, P) (1, identity_string (String.length P)) = Ok (s, P).
Proof.
  intros HP.
  pose proof (identity_string_pauli (String.length P)) as HI.
  pose proof (identity_string_length (String.length P)) as HlI.
  destruct (identity_l_strings P) as [Hl1 Hl2].
  destruct (identity_r_strings P) as [Hr1 Hr2].
  split; rewrite multiply_pauli_cases by (assumption || congruence);
    unfold total_exponent.
  - rewrite Hl1, Hl2. decide_consts. do 2 f_equal. lia.
  - rewrite Hr1, Hr2. decide_consts. do 2 f_equal. lia.
Qed.

Lemma multiply_pauli_identity_witness :
  multiply_pauli (1, identity_string 3) (-1, "XYZ"%string)
  = Ok (-1, "XYZ"%string).
Proof.
  exact (proj1 (multiply_pauli_identity (-1) "XYZ" eq_refl)).
Defined.

(** Two operators with the same string over the alphabet multiply to the
    identity string with the product of the signs; an operator with sign
    [+1] or [-1] squares to [(+1, I^n)]. *)
Theorem multiply_pauli_square s1 s2 P :
  pauli_string P = true →
  multiply_pauli (s1, P) (s2, P)
  = Ok (s1 * s2, identity_string (String.length P)) ∧
  (s1 = 1 ∨ s1 = -1 →
   multiply_pauli (s1, P) (s1, P)
   = Ok (1, identity_string (String.length P))).
Proof.
  intros HP. destruct (diag_strings P) as [H1 H2].
  assert (∀ a b, multiply_pauli (a, P) (b, P)
                 = Ok (a * b, identity_string (String.length P))) as Hsq.
  { intros a b. rewrite multiply_pauli_cases by done.
    unfold total_exponent. rewrite H1, H2. decide_consts.
    do 2 f_equal. lia. }
  split; [apply Hsq |].
  intros [-> | ->]; by rewrite Hsq.
Qed.

Lemma multiply_pauli_square_witness :
  multiply_pauli (-1, "XYZI"%string) (-1, "XYZI"%string)
  = Ok (1, identity_string 4).
Proof.
  refine (proj2 (multiply_pauli_square (-1) (-1) "XYZI" eq_refl) _).
  right. reflexivity.
Defined.

Lemma table_spec_swap a b :
  pauli_char a = true → pauli_char b = true →
  (table_spec b a).2 = (table_spec a b).2 ∧
  ((table_spec a b).1 + (table_spec b a).1) mod 4 = 0.
Proof.
  intros Ha%pauli_char_cases Hb%pauli_char_cases.
  destruct Ha as [->|[->|[->| ->]]], Hb as [->|[->|[->| ->]]];
    vm_compute; split; reflexivity.
Qed.

Lemma swap_strings P Q :
  pauli_string P = true → pauli_string Q = true →
  product_string Q P = product_string P Q ∧
  (phase_sum (zip_str P Q) + phase_sum (zip_str Q P)) mod 4 = 0.
Proof.
  unfold product_string. revert Q.
  induction P as [|a P IH]; intros [|b Q] HP HQ;
    cbn [zip_str phase_sum map join]; try done.
  cbn in HP, HQ.
  apply andb_true_iff in HP as [Ha HP]. apply andb_true_iff in HQ as [Hb HQ].
  destruct (IH Q HP HQ) as [IH1 IH2].
  destruct (table_spec_swap a b Ha Hb) as [Hs He].
  cbn [fst snd]. rewrite Hs, IH1. split; [reflexivity |].
  revert He IH2. generalize (table_spec a b).1 (table_spec b a).1
    (phase_sum (zip_str P Q)) (phase_sum (zip_str Q P)).
  intros. Z.div_mod_to_equations. lia.
Qed.

(** On operators with equal-length strings over the alphabet,
    [multiply_pauli] does not depend on the order of its arguments: for
    commuting strings both orders return the same operator, for
    anticommuting strings both raise the non-Hermitian-phase error. *)
Theorem multiply_pauli_comm sp sq P Q :
  pauli_string P = true → pauli_string Q = true →
  String.length P = String.length Q →
  multiply_pauli (sp, P) (sq, Q) = multiply_pauli (sq, Q) (sp, P).
Proof.
  intros HP HQ Hlen.
  rewrite !multiply_pauli_cases by (assumption || congruence).
  destruct (swap_strings P Q HP HQ) as [Hs He]. rewrite Hs.
  pose proof (total_exponent_range P Q) as R1.
  pose proof (total_exponent_range Q P) as R2.
  unfold total_exponent in *.
  revert He R1 R2. generalize (phase_sum (zip_str P Q))
    (phase_sum (zip_str Q P)). intros u v He R1 R2.
  assert (u mod 4 = 0 ∧ v mod 4 = 0 ∨ u mod 4 = 2 ∧ v mod 4 = 2 ∨
          u mod 4 = 1 ∧ v mod 4 = 3 ∨ u mod 4 = 3 ∧ v mod 4 = 1)
    as [[-> ->] | [[-> ->] | [[-> ->] | [-> ->]]]]
    by (Z.div_mod_to_equations; lia);
    decide_consts; do 2 f_equal; lia.
Qed.

Lemma multiply_pauli_comm_witness :
  multiply_pauli (1, "XX"%string) (-1, "ZZ"%string)
  = multiply_pauli (-1, "ZZ"%string) (1, "XX"%string).
Proof.
  exact (multiply_pauli_comm 1 (-1) "XX" "ZZ" eq_refl eq_refl eq_refl).
Defined.

Lemma table_spec_assoc a b c :
  pauli_char a = true → pauli_char b = true → pauli_char c = true →
  (table_spec (table_spec a b).2 c).2 = (table_spec a (table_spec b c).2).2 ∧
  ((table_spec a b).1 + (table_spec (table_spec a b).2 c).1) mod 4
  = ((table_spec b c).1 + (table_spec a (table_spec b c).2).1) mod 4.
Proof.
  intros Ha%pauli_char_cases Hb%pauli_char_cases Hc%pauli_char_cases.
  destruct Ha as [->|[->|[->| ->]]], Hb as [->|[->|[->| ->]]],
    Hc as [->|[->|[->| ->]]]; vm_compute; split; reflexivity.
Qed.

Lemma assoc_strings n P Q R :
  pauli_n n P → pauli_n n Q → pauli_n n R →
  product_string (product_string P Q) R
  = product_string P (product_string Q R) ∧
  (phase_sum (zip_str P Q)
   + phase_sum (zip_str (product_string P Q) R)) mod 4
  = (phase_sum (zip_str Q R)
     + phase_sum (zip_str P (product_string Q R))) mod 4.
Proof.
  unfold product_string.
  revert n Q R. induction P as [|a P IH]; intros n [|b Q] [|c R];
    intros [HP HnP] [HQ HnQ] [HR HnR]; cbn in HnP, HnQ, HnR;
    try congruence; [done |].
  cbn in HP, HQ, HR.
  apply andb_true_iff in HP as [Ha HP]. apply andb_true_iff in HQ as [Hb HQ].
  apply andb_true_iff in HR as [Hc HR].
  destruct (IH (String.length P) Q R) as [IH1 IH2];
    [split; congruence | split; congruence | split; congruence |].
  destruct (table_spec_assoc a b c Ha Hb Hc) as [Hs He].
  cbn [zip_str map join phase_sum fst snd].
  rewrite Hs, IH1. split; [reflexivity |].
  revert He IH2.
  generalize (table_spec a b).1 (table_spec (table_spec a b).2 c).1
    (table_spec b c).1 (table_spec a (table_spec b c).2).1.
  intros e1 e2 e3 e4.
  match goal with
  | |- _ → (?u1 + ?u2) mod 4 = (?u3 + ?u4) mod 4 → _ =>
      generalize u1 u2 u3 u4
  end.
  intros. Z.div_mod_to_equations. lia.
Qed.

(** [multiply_pauli] is associative where it is defined: when the products
    [p·q], [(p·q)·r] and [q·r] are returned, so is [p·(q·r)], and it is
    the same operator as [(p·q)·r]. *)
Theorem multiply_pauli_assoc (p q r pq qr x : gen) :
  multiply_pauli p q = Ok pq →
  multiply_pauli pq r = Ok x →
  multiply_pauli q r = Ok qr →
  multiply_pauli p qr = Ok x.
Proof.
  destruct p as [sp P], q as [sq Q], r as [sr R], pq as [s1 PQ],
    qr as [s3 QR], x as [s2 X].
  intros (L1 & HP & HQ & E1 & -> & ->)%multiply_pauli_ok_inv
         (L2 & _ & HR & E2 & -> & ->)%multiply_pauli_ok_inv
         (L3 & _ & _ & E3 & -> & ->)%multiply_pauli_ok_inv.
  set (n := String.length P).
  assert (pauli_n n P) as VP by done.
  assert (pauli_n n Q) as VQ by (split; [done | unfold n; congruence]).
  assert (pauli_n n R) as VR by (split; [done | unfold n; congruence]).
  pose proof (product_string_pauli_n n Q R VQ VR) as [VQR LQR].
  destruct (assoc_strings n P Q R VP VQ VR) as [Hs He].
  rewrite multiply_pauli_cases by (done || (unfold n in LQR; congruence)).
  rewrite Hs.
  pose proof (total_exponent_range P Q) as R1.
  pose proof (total_exponent_range (product_string P Q) R) as R2.
  pose proof (total_exponent_range Q R) as R3.
  pose proof (total_exponent_range P (product_string Q R)) as R4.
  unfold total_exponent in *.
  revert He E1 E2 E3 R1 R2 R3 R4.
  generalize (phase_sum (zip_str P Q))
    (phase_sum (zip_str (product_string P Q) R))
    (phase_sum (zip_str Q R))
    (phase_sum (zip_str P (product_string Q R))).
  intros u1 u2 u3 u4 He E1 E2 E3 R1 R2 R3 R4.
  assert ((u1 mod 4 = 0 ∨ u1 mod 4 = 2) ∧ (u2 mod 4 = 0 ∨ u2 mod 4 = 2) ∧
          (u3 mod 4 = 0 ∨ u3 mod 4 = 2) ∧ (u4 mod 4 = 0 ∨ u4 mod 4 = 2) ∧
          (u1 mod 4 + u2 mod 4) mod 4 = (u3 mod 4 + u4 mod 4) mod 4)
    as (H1 & H2 & H3 & H4 & H5)
    by (repeat split; Z.div_mod_to_equations; lia).
  revert H1 H2 H3 H4 H5.
  generalize (u1 mod 4) (u2 mod 4) (u3 mod 4) (u4 mod 4).
  intros t1 t2 t3 t4 [-> | ->] [-> | ->] [-> | ->] [-> | ->] H5;
    try discriminate H5; decide_consts; do 2 f_equal; lia.
Qed.

Lemma multiply_pauli_assoc_witness :
  multiply_pauli (1, "XX"%string) (1, "YY"%string) = Ok (-1, "ZZ"%string).
Proof.
  apply (multiply_pauli_assoc (1, "XX"%string) (1, "ZZ"%string)
           (-1, "XX"%string) (-1, "YY"%string) (1, "YY"%string)
           (-1, "ZZ"%string)); vm_compute; reflexivity.
Defined.

(** *** Commutation with a product *)

Lemma anti_at_pauli_r a c : anti_at a c = true → pauli_char c = true.
Proof.
  unfold anti_at. intros H.
  apply andb_true_iff in H as [_ H%bool_decide_eq_true].
  unfold anti_pairs in H.
  rewrite !elem_of_union, !elem_of_singleton in H.
  repeat destruct H as [H | H]; injection H as -> ->; reflexivity.
Qed.

Lemma anti_at_table_any a b c :
  pauli_char a = true → pauli_char b = true →
  anti_at (table_spec a b).2 c = xorb (anti_at a c) (anti_at b c).
Proof.
  intros Ha Hb. destruct (pauli_char c) eqn:Hc.
  - by apply anti_at_table.
  - assert (∀ x, anti_at x c = false) as Hno.
    { intros x. destruct (anti_at x c) eqn:E; [| reflexivity].
      apply anti_at_pauli_r in E. congruence. }
    by rewrite !Hno.
Qed.

Lemma odd_anti_product_any P Q C :
  pauli_string P = true → pauli_string Q = true →
  String.length P = String.length Q →
  String.length C = String.length P →
  odd_anti (zip_str (product_string P Q) C)
  = xorb (odd_anti (zip_str P C)) (odd_anti (zip_str Q C)).
Proof.
  unfold product_string.
  revert Q C. induction P as [|a P IH]; intros [|b Q] [|c C] HP HQ L1 L2;
    cbn in L1, L2; try congruence; [done |].
  cbn in HP, HQ.
  apply andb_true_iff in HP as [Ha HP]. apply andb_true_iff in HQ as [Hb HQ].
  cbn [zip_str map join odd_anti fst snd].
  rewrite (anti_at_table_any a b c Ha Hb).
  rewrite (IH Q C) by congruence.
  by destruct (anti_at a c), (anti_at b c), (odd_anti (zip_str P C)),
    (odd_anti (zip_str Q C)).
Qed.

(** A returned product anticommutes with a string [C] of the same length
    exactly when one of the two factors does and the other does not. *)
Theorem anticommutes_product (p q r : gen) (C : string) :
  multiply_pauli p q = Ok r →
  String.length C = String.length p.2 →
  ∃ a b, anticommutes p.2 C = Ok a ∧ anticommutes q.2 C = Ok b ∧
         anticommutes r.2 C = Ok (xorb a b).
Proof.
  destruct p as [sp P], q as [sq Q], r as [s R]. cbn [snd].
  intros (L & HP & HQ & _ & _ & ->)%multiply_pauli_ok_inv LC.
  exists (odd_anti (zip_str P C)), (odd_anti (zip_str Q C)).
  rewrite !anticommutes_odd
    by (rewrite ?product_string_length; congruence).
  by rewrite odd_anti_product_any.
Qed.

Lemma anticommutes_product_witness :
  ∃ a b, anticommutes "XX" "ZI" = Ok a ∧ anticommutes "ZZ" "ZI" = Ok b ∧
         anticommutes "YY" "ZI" = Ok (xorb a b).
Proof.
  apply (anticommutes_product (1, "XX"%string) (1, "ZZ"%string)
           (-1, "YY"%string) "ZI").
  - vm_compute. reflexivity.
  - reflexivity.
Defined.

(** *** Printing *)

(** [pretty] tells apart any two operators whose signs are [+1] or [-1],
    and prints one character more than the string. *)
Theorem pretty_inj (p q : gen) :
  p.1 = 1 ∨ p.1 = -1 → q.1 = 1 ∨ q.1 = -1 →
  (pretty p = pretty q → p = q) ∧
  String.length (pretty p) = S (String.length p.2).
Proof.
  destruct p as [s P], q as [t Q]. cbn [fst snd]. unfold pretty.
  intros Hs Ht. split.
  - destruct Hs as [-> | ->], Ht as [-> | ->];
      rewrite ?(decide_True (P := 1 >= 0)) by lia;
      rewrite ?(decide_False (P := -1 >= 0)) by lia;
      cbv [String.append]; intros [=]; congruence.
  - destruct (decide (s >= 0)); reflexivity.
Qed.

Lemma pretty_inj_witness :
  String.length (pretty (-1, "XZ"%string)) = 3%nat.
Proof.
  refine (proj2 (pretty_inj (-1, "XZ"%string) (1, "XZ"%string) _ _)).
  - right. reflexivity.
  - left. reflexivity.
Defined.

Lemma multiply_pauli_ok_iff_witness :
  is_ok (multiply_pauli (1, "XZ"%string) (1, "ZX"%string)) = true.
Proof.
  apply (proj1 (multiply_pauli_ok_iff 1 1 "XZ" "ZX")).
  repeat split; reflexivity.
Defined.

End pauli_group.

(** * Further properties of the resource updater *)

Section updater_more.

Implicit Types (h : heap) (g l : loc) (gs cur : list gen) (M : string).

(** *** Exceptions of a call *)

Lemma anticommutes_ok_length P Q b :
  anticommutes P Q = Ok b → String.length P = String.length Q.
Proof.
  unfold anticommutes.
  destruct (decide (String.length P = String.length Q)); [done | discriminate].
Qed.

Lemma anticommutes_raise P Q e :
  anticommutes P Q = Raise e →
  e = AssertionError_MismatchedLength ∧ String.length P ≠ String.length Q.
Proof.
  unfold anticommutes.
  destruct (decide (String.length P = String.length Q));
    [discriminate | by intros [= <-]].
Qed.

Lemma anti_idx_from_ok_all j gs M js :
  anti_idx_from j gs M = Ok js →
  ∀ i x, gs !! i = Some x → is_ok (anticommutes x.2 M) = true.
Proof.
  revert j js. induction gs as [|[sg G] gs IH]; intros j js H i x Hx.
  - by rewrite lookup_nil in Hx.
  - cbn [anti_idx_from] in H.
    destruct (anticommutes G M) as [b|e] eqn:Eb; [| discriminate H].
    destruct (anti_idx_from (S j) gs M) as [js'|e] eqn:E'; [| discriminate H].
    destruct i as [|i].
    + injection Hx as <-. cbn [snd]. by rewrite Eb.
    + by eapply IH.
Qed.

Lemma anti_idx_from_raise j gs M e :
  anti_idx_from j gs M = Raise e → e = AssertionError_MismatchedLength.
Proof.
  revert j. induction gs as [|[sg G] gs IH]; intros j H; [discriminate H |].
  cbn [anti_idx_from] in H.
  destruct (anticommutes G M) as [b|e'] eqn:Eb.
  - destruct (anti_idx_from (S j) gs M) as [js'|e'] eqn:E'; [discriminate H |].
    injection H as <-. by eapply IH.
  - injection H as <-. by apply anticommutes_raise in Eb as [-> _].
Qed.

Lemma anti_idx_from_bad_length j gs M x :
  x ∈ gs → String.length x.2 ≠ String.length M →
  anti_idx_from j gs M = Raise AssertionError_MismatchedLength.
Proof.
  intros [i Hi]%list_elem_of_lookup_1 Hlen.
  destruct (anti_idx_from j gs M) as [js|e] eqn:E.
  - pose proof (anti_idx_from_ok_all _ _ _ _ E i x Hi) as Hok.
    destruct (anticommutes x.2 M) as [b|e] eqn:Eb; [| discriminate Hok].
    by apply anticommutes_ok_length in Eb.
  - by rewrite (anti_idx_from_raise _ _ _ _ E).
Qed.

Lemma anti_idx_from_bound j gs M js :
  anti_idx_from j gs M = Ok js →
  Forall (λ k, (j ≤ k < j + length gs)%nat) js.
Proof.
  intros E.
  destruct (anti_idx_from_spec j gs M (anti_idx_from_ok_all _ _ _ _ E))
    as (js' & E' & Hmem & _).
  rewrite E in E'. injection E' as <-.
  apply Forall_forall. intros k (i & x & -> & Hi & _)%Hmem.
  apply lookup_lt_Some in Hi. lia.
Qed.

Lemma multiply_pauli_raise p q e :
  multiply_pauli p q = Raise e → e ≠ IndexError ∧ e ≠ UnboundReference.
Proof.
  destruct p as [sp P], q as [sq Q]. rewrite multiply_pauli_closed_form.
  destruct (decide (String.length P = String.length Q));
    [| by intros [= <-]].
  destruct (find bad_pair (zip_str P Q)); [by intros [= <-] |].
  destruct (decide (total_exponent P Q mod 2 ≠ 0));
    [by intros [= <-] | discriminate].
Qed.

Lemma multiply_others_raise g old js h cur e h' :
  h !! g = Some cur →
  Forall (λ j, (j < length cur)%nat) js →
  multiply_others g old js h = (Raise e, h') →
  e ≠ IndexError ∧ e ≠ UnboundReference.
Proof.
  revert h cur. induction js as [|j js IH]; intros h cur Hg Hjs Hrun.
  - discriminate Hrun.
  - apply Forall_cons in Hjs as [Hj Hjs].
    destruct (lookup_lt_is_Some_2 cur j Hj) as [x Hx].
    cbn [multiply_others] in Hrun.
    unfold bind at 1, list_getitem in Hrun. rewrite Hg, Hx in Hrun.
    unfold bind at 1, lift in Hrun.
    destruct (multiply_pauli x old) as [r|e'] eqn:Er.
    + unfold bind at 1, list_setitem in Hrun. rewrite Hg in Hrun.
      rewrite decide_True in Hrun by assumption.
      eapply (IH _ (<[j := r]> cur)); [by rewrite lookup_insert_eq | | done].
      by rewrite length_insert.
    + injection Hrun as <- <-. by eapply multiply_pauli_raise.
Qed.

Lemma measure_raise n outs g M h gs e h' :
  h !! g = Some gs →
  measure n outs g M h = (Raise e, h') →
  e ≠ IndexError ∧ e ≠ UnboundReference.
Proof.
  intros Hg Hrun. unfold measure in Hrun.
  destruct (decide (String.length M ≠ n)) as [Hn | Hn];
    [by injection Hrun as <- <- |].
  unfold bind at 1, list_read in Hrun. rewrite Hg in Hrun.
  unfold bind at 1, lift in Hrun.
  destruct (anti_idx_from 0 gs M) as [[|p rest]|e'] eqn:E.
  - unfold list_append in Hrun. rewrite Hg in Hrun. discriminate Hrun.
  - pose proof (anti_idx_from_bound _ _ _ _ E) as [Hp Hrest]%Forall_cons.
    destruct (lookup_lt_is_Some_2 gs p) as [old Hold]; [lia |].
    unfold bind at 1, list_getitem in Hrun. rewrite Hg, Hold in Hrun.
    unfold bind at 1, list_setitem in Hrun. rewrite Hg in Hrun.
    rewrite decide_True in Hrun by lia.
    eapply multiply_others_raise; [| | exact Hrun].
    + by rewrite lookup_insert_eq.
    + rewrite length_insert. eapply Forall_impl; [exact Hrest |].
      cbn. intros; lia.
  - injection Hrun as <- <-.
    by rewrite (anti_idx_from_raise _ _ _ _ E).
Qed.

Lemma measure_all_raise n outs g ms h gs e h' :
  h !! g = Some gs →
  measure_all n outs g ms h = (Raise e, h') →
  e ≠ IndexError ∧ e ≠ UnboundReference.
Proof.
  revert h gs. induction ms as [|M ms IH]; intros h gs Hg Hrun.
  - discriminate Hrun.
  - cbn [measure_all] in Hrun. unfold bind in Hrun.
    destruct (measure n outs g M h) as [[[]|e1] h1] eqn:E1.
    + destruct (measure_effect _ _ _ _ _ _ _ _ Hg E1)
        as [_ (gs1 & Hg1 & _)].
      by eapply IH.
    + injection Hrun as <- <-. by eapply measure_raise.
Qed.

(** A call never ends by an index error: the indices [p] and [j] taken
    from [anti_idx] are always in range of the working list. (Nor does it
    ever use a reference that holds no list.) *)
Theorem update_never_index_error l ms outs h gs0 e h' :
  h !! l = Some gs0 →
  update_resource_with_fusions l ms outs h = (Raise e, h') →
  e ≠ IndexError ∧ e ≠ UnboundReference.
Proof.
  intros Hl Hrun. rewrite (update_unfold _ _ _ _ _ Hl) in Hrun.
  cbn zeta in Hrun.
  destruct (measure_all _ _ _ _ _) as [[[]|e1] h1] eqn:E1;
    [discriminate Hrun |].
  injection Hrun as <- <-.
  eapply measure_all_raise; [| exact E1]. by rewrite lookup_insert_eq.
Qed.

Lemma update_never_index_error_witness :
  ValueError_NonHermitianPhase ≠ IndexError ∧
  ValueError_NonHermitianPhase ≠ UnboundReference.
Proof.
  refine (update_never_index_error 1%positive ["Z"%string] None
            {[ 1%positive := [(1, "X"%string); (1, "Y"%string)] ]}
            [(1, "X"%string); (1, "Y"%string)]
            ValueError_NonHermitianPhase
            (update_resource_with_fusions 1%positive ["Z"%string] None
               {[ 1%positive := [(1, "X"%string); (1, "Y"%string)] ]}).2
            _ _).
  - reflexivity.
  - vm_compute. reflexivity.
Defined.

(** Generators of different lengths are detected at the first
    measurement: when some generator's string does not have the length of
    the first measurement, the call ends by the assertion error of
    [anticommutes], with the working list still equal to the input. *)
Theorem update_generator_length_mismatch l M ms outs h gs0 x :
  h !! l = Some gs0 →
  String.length M = qubit_count gs0 (M :: ms) →
  x ∈ gs0 →
  String.length x.2 ≠ String.length M →
  update_resource_with_fusions l (M :: ms) outs h
  = (Raise AssertionError_MismatchedLength, <[fresh (dom h) := gs0]> h).
Proof.
  intros Hl Hn Hx Hlen. rewrite (update_unfold _ _ _ _ _ Hl). cbn zeta.
  cbn [measure_all]. unfold bind at 1. unfold measure.
  rewrite decide_False by (intros Hne; by apply Hne).
  unfold bind at 1, list_read. rewrite lookup_insert_eq.
  unfold bind at 1, lift.
  by rewrite (anti_idx_from_bad_length 0 gs0 M x Hx Hlen).
Qed.

Lemma update_generator_length_mismatch_witness :
  update_resource_with_fusions 1%positive ["ZZ"%string] None
    {[ 1%positive := [(1, "XX"%string); (1, "XXX"%string)] ]}
  = (Raise AssertionError_MismatchedLength,
     <[ 2%positive := [(1, "XX"%string); (1, "XXX"%string)] ]>
       {[ 1%positive := [(1, "XX"%string); (1, "XXX"%string)] ]}).
Proof.
  refine (update_generator_length_mismatch 1%positive "ZZ" [] None
            {[ 1%positive := [(1, "XX"%string); (1, "XXX"%string)] ]}
            [(1, "XX"%string); (1, "XXX"%string)] (1, "XXX"%string)
            _ _ _ _).
  - reflexivity.
  - reflexivity.
  - right. left.
  - vm_compute. discriminate.
Defined.

(** *** Length of the returned list *)

Lemma case_A_count_le n outs g ms h :
  (case_A_count n outs g ms h ≤ length ms)%nat.
Proof.
  revert h. induction ms as [|M ms IH]; intros h; cbn [case_A_count length].
  - lia.
  - specialize (IH (measure n outs g M h).2).
    destruct (case_A g M h); lia.
Qed.

(** The returned list has at least as many entries as the input and at
    most one more per measurement. *)
Theorem update_length_bounds l ms outs h gs0 g h' :
  h !! l = Some gs0 →
  update_resource_with_fusions l ms outs h = (Ok g, h') →
  ∃ gs', h' !! g = Some gs' ∧
         (length gs0 ≤ length gs' ≤ length gs0 + length ms)%nat.
Proof.
  intros Hl Hrun. rewrite (update_unfold _ _ _ _ _ Hl) in Hrun.
  cbn zeta in Hrun.
  destruct (measure_all _ _ _ _ _) as [[[]|e1] h1] eqn:E1;
    [| discriminate Hrun].
  injection Hrun as <- <-.
  eapply measure_all_effect in E1 as [_ (gs' & Hg' & Hle & Hlen)];
    [| by rewrite lookup_insert_eq].
  exists gs'. split; [assumption |]. specialize (Hlen eq_refl).
  pose proof (case_A_count_le (qubit_count gs0 ms) (default ∅ outs)
                (fresh (dom h)) ms (<[fresh (dom h) := gs0]> h)).
  lia.
Qed.

Lemma update_length_bounds_witness :
  ∃ gs',
    (update_resource_with_fusions 1%positive ["ZZ"%string; "XI"%string] None
       {[ 1%positive := [(1, "XX"%string)] ]}).2 !! 2%positive = Some gs' ∧
    (1 ≤ length gs' ≤ 1 + 2)%nat.
Proof.
  refine (update_length_bounds 1%positive ["ZZ"%string; "XI"%string] None
            {[ 1%positive := [(1, "XX"%string)] ]}
            [(1, "XX"%string)] 2%positive _ _ _).
  - reflexivity.
  - vm_compute. reflexivity.
Defined.

(** *** A step that returns *)

Lemma multiply_others_ok_inv g old js h cur h' :
  h !! g = Some cur →
  NoDup js →
  multiply_others g old js h = (Ok tt, h') →
  ∀ j, j ∈ js → ∃ x r, cur !! j = Some x ∧ multiply_pauli x old = Ok r.
Proof.
  revert h cur. induction js as [|j js IH]; intros h cur Hg Hnd Hrun j' Hj'.
  - by apply elem_of_nil in Hj'.
  - apply NoDup_cons in Hnd as [Hj Hnd].
    cbn [multiply_others] in Hrun.
    unfold bind at 1, list_getitem in Hrun. rewrite Hg in Hrun.
    destruct (cur !! j) as [x|] eqn:Hx; [| discriminate Hrun].
    unfold bind at 1, lift in Hrun.
    destruct (multiply_pauli x old) as [r|e] eqn:Er; [| discriminate Hrun].
    unfold bind at 1, list_setitem in Hrun. rewrite Hg in Hrun.
    destruct (decide (j < length cur)%nat) as [Hlt | Hlt];
      [| discriminate Hrun].
    apply elem_of_cons in Hj' as [-> | Hj']; [eauto |].
    destruct (IH _ (<[j := r]> cur) (lookup_insert_eq _ _ _) Hnd Hrun j' Hj')
      as (x' & r' & Hx' & Hr').
    exists x', r'. split; [| assumption].
    rewrite list_lookup_insert_ne in Hx'; [done |]. by intros ->.
Qed.

(** What a returning step did: it appended [(outcome, M)] (Case A), or it
    overwrote the pivot and multiplied the other anticommuting entries
    (Case B). *)
Lemma measure_ok_inv n outs g M h gs h' :
  h !! g = Some gs →
  measure n outs g M h = (Ok tt, h') →
  String.length M = n ∧
  (∀ i x, gs !! i = Some x → is_ok (anticommutes x.2 M) = true) ∧
  ((anti_idx_from 0 gs M = Ok [] ∧
    h' = <[g := gs ++ [(default 1 (outs !! M), M)]]> h) ∨
   (∃ p rest old gs',
      anti_idx_from 0 gs M = Ok (p :: rest) ∧
      gs !! p = Some old ∧
      anticommutes old.2 M = Ok true ∧
      h' = <[g := gs']> h ∧
      length gs' = length gs ∧
      gs' !! p = Some (default 1 (outs !! M), M) ∧
      (∀ j x, j ≠ p → gs !! j = Some x → anticommutes x.2 M = Ok true →
              ∃ r, multiply_pauli x old = Ok r ∧ gs' !! j = Some r) ∧
      (∀ j x, j ≠ p → gs !! j = Some x → anticommutes x.2 M = Ok false →
              gs' !! j = Some x))).
Proof.
  intros Hg Hrun. pose proof Hrun as Hrun0. unfold measure in Hrun.
  destruct (decide (String.length M ≠ n)) as [Hn | Hn]; [discriminate Hrun |].
  assert (String.length M = n) as Hn'
    by (destruct (decide (String.length M = n)); [done | by destruct Hn]).
  split; [assumption |].
  unfold bind at 1, list_read in Hrun. rewrite Hg in Hrun.
  unfold bind at 1, lift in Hrun.
  destruct (anti_idx_from 0 gs M) as [js|e] eqn:E; [| discriminate Hrun].
  pose proof (anti_idx_from_ok_all _ _ _ _ E) as Hall.
  split; [assumption |].
  destruct js as [|p rest].
  - left. split; [reflexivity |].
    rewrite (measure_case_A_run n outs g M h gs Hg Hn' E) in Hrun0.
    by injection Hrun0 as <-.
  - right.
    destruct (anti_idx_from_spec 0 gs M Hall) as (js' & E' & Hmem & Hsort).
    rewrite E in E'. injection E' as <-.
    assert (p ∈ p :: rest) as (i & old & Hi & Hp & Hanti)%Hmem by left.
    cbn in Hi. subst i.
    apply StronglySorted_inv in Hsort as [Hsort Hlt].
    rewrite Forall_forall in Hlt.
    unfold bind at 1, list_getitem in Hrun. rewrite Hg, Hp in Hrun.
    unfold bind at 1, list_setitem in Hrun. rewrite Hg in Hrun.
    rewrite decide_True in Hrun by (by eapply lookup_lt_Some).
    pose proof (multiply_others_ok_inv _ _ _ _ _ _
                  (lookup_insert_eq _ _ _) (sorted_lt_NoDup _ Hsort) Hrun)
      as Hprod.
    assert (∀ j x, j ≠ p → gs !! j = Some x →
                   anticommutes x.2 M = Ok true →
                   is_ok (multiply_pauli x old) = true) as Hmul.
    { intros j x Hjp Hx Hax.
      assert (j ∈ p :: rest) as [-> | Hj]%elem_of_cons
        by (apply Hmem; by exists j, x); [done |].
      destruct (Hprod j Hj) as (x' & r & Hx' & Hr).
      rewrite list_lookup_insert_ne in Hx' by done.
      assert (x' = x) as -> by congruence. by rewrite Hr. }
    destruct (measure_case_B_run n outs g M h gs p rest old
                Hg Hn' Hall E Hp Hmul)
      as (gs' & Hrun' & Hlen & Hpiv & Hanti' & Hcomm).
    rewrite Hrun' in Hrun0. injection Hrun0 as <-.
    exists p, rest, old, gs'. repeat split; assumption.
Qed.

Lemma measure_ok_commutes n outs g M h gs h' :
  h !! g = Some gs →
  measure n outs g M h = (Ok tt, h') →
  ∃ gs', h' !! g = Some gs' ∧
    (default 1 (outs !! M), M) ∈ gs' ∧
    ∀ y, y ∈ gs' → anticommutes y.2 M = Ok false.
Proof.
  intros Hg Hrun.
  destruct (measure_ok_inv n outs g M h gs h' Hg Hrun)
    as (Hn & Hall & [[E ->] | (p & rest & old & gs' & E & Hp & Hanti & ->
                                 & Hlen & Hpiv & Hprod & Hsame)]).
  - exists (gs ++ [(default 1 (outs !! M), M)]).
    rewrite lookup_insert_eq. split; [reflexivity |].
    split; [apply elem_of_app; right; left |].
    destruct (anti_idx_from_spec 0 gs M Hall) as (js' & E' & Hmem & _).
    rewrite E in E'. injection E' as <-.
    intros y [Hy | Hy%list_elem_of_singleton]%elem_of_app.
    + apply list_elem_of_lookup_1 in Hy as [i Hi].
      pose proof (Hall i y Hi) as Hok.
      destruct (anticommutes y.2 M) as [[|]|e] eqn:Eb;
        [| reflexivity | discriminate Hok].
      assert (i ∈ @nil nat) as Hin by (apply Hmem; by exists i, y).
      by apply elem_of_nil in Hin.
    + subst y. cbn [snd]. rewrite anticommutes_odd by reflexivity.
      by rewrite odd_anti_diag.
  - exists gs'. rewrite lookup_insert_eq. split; [reflexivity |].
    split; [by eapply list_elem_of_lookup_2 |].
    intros y [i Hi]%list_elem_of_lookup_1.
    destruct (decide (i = p)) as [-> | Hip].
    { rewrite Hpiv in Hi. injection Hi as <-. cbn [snd].
      rewrite anticommutes_odd by reflexivity. by rewrite odd_anti_diag. }
    assert (is_Some (gs !! i)) as [x Hx].
    { apply lookup_lt_is_Some. rewrite <- Hlen. by eapply lookup_lt_Some. }
    pose proof (Hall i x Hx) as Hok.
    destruct (anticommutes x.2 M) as [[|]|e] eqn:Eb; [| | discriminate Hok].
    + destruct (Hprod i x Hip Hx Eb) as (r & Hr & Hr').
      assert (y = r) as -> by congruence.
      destruct x as [sx P], old as [so Q], r as [s R]. cbn [snd] in *.
      apply multiply_pauli_ok_inv in Hr as (L & HP & HQ & _ & _ & ->).
      pose proof (anticommutes_ok_length _ _ _ Eb) as LM.
      rewrite anticommutes_odd in Eb, Hanti by congruence.
      injection Eb as Eb. injection Hanti as Hanti.
      rewrite anticommutes_odd
        by (rewrite product_string_length; congruence).
      rewrite odd_anti_product_any by congruence.
      by rewrite Eb, Hanti.
    + rewrite (Hsame i x Hip Hx Eb) in Hi. injection Hi as <-. exact Eb.
Qed.

(** After a step that returns, the measured operator is in the list with
    its outcome sign, and every entry of the list commutes with the
    measured string. *)
Theorem measure_commutes_after n outs g M h gs h' :
  h !! g = Some gs →
  measure n outs g M h = (Ok tt, h') →
  ∃ gs', h' !! g = Some gs' ∧
    (default 1 (outs !! M), M) ∈ gs' ∧
    ∀ y, y ∈ gs' → anticommutes y.2 M = Ok false.
Proof. apply measure_ok_commutes. Qed.

Lemma measure_commutes_after_witness :
  ∃ gs',
    (measure 3 ∅ 1%positive "IXI"
       {[ 1%positive :=
            [(1, "XXX"%string); (1, "ZZI"%string); (1, "IZZ"%string)] ]}).2
      !! 1%positive = Some gs' ∧
    (default 1 ((∅ : gmap string Z) !! "IXI"%string), "IXI"%string) ∈ gs' ∧
    ∀ y, y ∈ gs' → anticommutes y.2 "IXI" = Ok false.
Proof.
  refine (measure_commutes_after 3 ∅ 1%positive "IXI"
            {[ 1%positive :=
                 [(1, "XXX"%string); (1, "ZZI"%string); (1, "IZZ"%string)] ]}
            [(1, "XXX"%string); (1, "ZZI"%string); (1, "IZZ"%string)]
            _ _ _).
  - reflexivity.
  - vm_compute. reflexivity.
Defined.

(** *** Invariants of the entries *)

(** Every entry after a returning step is the measured operator, an entry
    of the list before, or a product of two entries of the list before. *)
Lemma measure_entries n outs g M h gs h' :
  h !! g = Some gs →
  measure n outs g M h = (Ok tt, h') →
  ∃ gs', h' !! g = Some gs' ∧
    ∀ y, y ∈ gs' →
      y = (default 1 (outs !! M), M) ∨ y ∈ gs ∨
      ∃ x old, x ∈ gs ∧ old ∈ gs ∧ multiply_pauli x old = Ok y.
Proof.
  intros Hg Hrun.
  destruct (measure_ok_inv n outs g M h gs h' Hg Hrun)
    as (Hn & Hall & [[E ->] | (p & rest & old & gs' & E & Hp & Hanti & ->
                                 & Hlen & Hpiv & Hprod & Hsame)]).
  - eexists. rewrite lookup_insert_eq. split; [reflexivity |].
    intros y [Hy | Hy%list_elem_of_singleton]%elem_of_app; auto.
  - exists gs'. rewrite lookup_insert_eq. split; [reflexivity |].
    intros y [i Hi]%list_elem_of_lookup_1.
    destruct (decide (i = p)) as [-> | Hip].
    { left. rewrite Hpiv in Hi. by injection Hi as <-. }
    assert (is_Some (gs !! i)) as [x Hx].
    { apply lookup_lt_is_Some. rewrite <- Hlen. by eapply lookup_lt_Some. }
    pose proof (Hall i x Hx) as Hok.
    destruct (anticommutes x.2 M) as [[|]|e] eqn:Eb; [| | discriminate Hok].
    + destruct (Hprod i x Hip Hx Eb) as (r & Hr & Hr').
      assert (y = r) as -> by congruence.
      right. right. exists x, old.
      repeat split; [by eapply list_elem_of_lookup_2
                    | by eapply list_elem_of_lookup_2 | assumption].
    + rewrite (Hsame i x Hip Hx Eb) in Hi. injection Hi as <-.
      right. left. by eapply list_elem_of_lookup_2.
Qed.

(** A property of operators that products keep and that the measured
    operators have is kept by a returning run. *)
Lemma measure_all_invariant (Pr : gen → Prop) n outs g ms h gs h' :
  (∀ x y r, Pr x → Pr y → multiply_pauli x y = Ok r → Pr r) →
  (∀ M, M ∈ ms → Pr (default 1 (outs !! M), M)) →
  h !! g = Some gs →
  Forall Pr gs →
  measure_all n outs g ms h = (Ok tt, h') →
  ∃ gs', h' !! g = Some gs' ∧ Forall Pr gs'.
Proof.
  intros Hmul. revert h gs.
  induction ms as [|M ms IH]; intros h gs Hnew Hg Hgs Hrun.
  - injection Hrun as <-. eauto.
  - cbn [measure_all] in Hrun. unfold bind in Hrun.
    destruct (measure n outs g M h) as [[[]|e] h1] eqn:E1;
      [| discriminate Hrun].
    destruct (measure_entries _ _ _ _ _ _ _ Hg E1) as (gs1 & Hg1 & Hent).
    apply (IH h1 gs1); [| assumption | | assumption].
    + intros M' HM'. apply Hnew. by right.
    + rewrite Forall_forall in Hgs. apply Forall_forall.
      intros y [-> | [Hy | (x & old & Hx & Hold & Hr)]]%Hent.
      * apply Hnew. by left.
      * by apply Hgs.
      * eapply Hmul; [| | exact Hr]; by apply Hgs.
Qed.

(** When the signs of the generators and the outcome values are all [+1]
    or [-1], so are the signs of the returned generators. *)
Theorem update_signs l ms outs h gs0 g h' :
  h !! l = Some gs0 →
  Forall (λ x : gen, x.1 = 1 ∨ x.1 = -1) gs0 →
  (∀ M v, default ∅ outs !! M = Some v → v = 1 ∨ v = -1) →
  update_resource_with_fusions l ms outs h = (Ok g, h') →
  ∃ gs', h' !! g = Some gs' ∧
         Forall (λ x : gen, x.1 = 1 ∨ x.1 = -1) gs'.
Proof.
  intros Hl Hgs Hout Hrun. rewrite (update_unfold _ _ _ _ _ Hl) in Hrun.
  cbn zeta in Hrun.
  destruct (measure_all _ _ _ _ _) as [[[]|e1] h1] eqn:E1;
    [| discriminate Hrun].
  injection Hrun as <- <-.
  eapply (measure_all_invariant (λ x : gen, x.1 = 1 ∨ x.1 = -1));
    [| | by rewrite lookup_insert_eq | exact Hgs | exact E1].
  - intros [sp P] [sq Q] [s R] Hp Hq
      (_ & _ & _ & _ & -> & _)%multiply_pauli_ok_inv.
    cbn [fst] in *.
    destruct Hp as [-> | ->], Hq as [-> | ->];
      destruct (decide (total_exponent P Q = 0)); lia.
  - intros M _. cbn [fst]. unfold default at 1.
    destruct (default ∅ outs !! M) as [v|] eqn:Ev; [by eapply Hout | by left].
Qed.

Lemma update_signs_witness :
  ∃ gs', (update_resource_with_fusions 1%positive scenario1_fusions
            (Some scenario1_outcomes) scenario1_store).2 !! 2%positive
         = Some gs' ∧
         Forall (λ x : gen, x.1 = 1 ∨ x.1 = -1) gs'.
Proof.
  refine (update_signs 1%positive scenario1_fusions
            (Some scenario1_outcomes) scenario1_store scenario1_resource
            2%positive _ _ _ _ _).
  - reflexivity.
  - repeat constructor.
  - intros M v.
    change (default ∅ (Some scenario1_outcomes)) with scenario1_outcomes.
    unfold scenario1_outcomes.
    intros [[_ <-] | [_ [[_ <-] | [_ Hv]]%lookup_insert_Some]]%lookup_insert_Some;
      [by left | by right | by rewrite lookup_empty in Hv].
  - vm_compute. reflexivity.
Defined.

Lemma measure_all_ok_lengths n outs g ms h h' :
  measure_all n outs g ms h = (Ok tt, h') →
  Forall (λ M, String.length M = n) ms.
Proof.
  intros Hrun. apply Forall_forall. intros M HM.
  destruct (decide (String.length M = n)) as [|Hn]; [assumption |].
  pose proof (measure_all_mismatch n outs g ms h (ex_intro _ M (conj HM Hn)))
    as Hf.
  rewrite Hrun in Hf. discriminate Hf.
Qed.

Lemma measure_all_lengths n outs g M ms h gs h' :
  h !! g = Some gs →
  measure_all n outs g (M :: ms) h = (Ok tt, h') →
  Forall (λ x : gen, String.length x.2 = n) gs ∧
  ∃ gs', h' !! g = Some gs' ∧ (0 < length gs')%nat ∧
    Forall (λ x : gen, String.length x.2 = n) gs'.
Proof.
  intros Hg E1.
  pose proof (measure_all_ok_lengths _ _ _ _ _ _ E1) as Hms.
  assert (Forall (λ x : gen, String.length x.2 = n) gs ∧
          (0 < length gs + case_A_count n outs g (M :: ms) h)%nat)
    as [Hgs Hpos].
  { pose proof E1 as E1'.
    cbn [measure_all] in E1'. unfold bind in E1'.
    destruct (measure n outs g M h) as [[[]|e] h2] eqn:E2;
      [| discriminate E1'].
    destruct (measure_ok_inv _ _ _ _ _ _ _ Hg E2) as (Hn & Hall & Hcase).
    split.
    - apply Forall_lookup. intros i x Hx. specialize (Hall i x Hx).
      destruct (anticommutes x.2 M) as [b|e] eqn:Eb; [| discriminate Hall].
      apply anticommutes_ok_length in Eb. congruence.
    - cbn [case_A_count]. unfold case_A. rewrite Hg.
      destruct Hcase as [[-> _] | (p & rest & old & _ & _ & Hp & _)];
        [lia |].
      apply lookup_lt_Some in Hp. lia. }
  split; [assumption |].
  destruct (measure_all_effect _ _ _ _ _ _ _ _ Hg E1)
    as [_ (gs' & Hg' & _ & Hlen)].
  destruct (measure_all_invariant (λ x : gen, String.length x.2 = n)
              n outs g (M :: ms) h gs h') as (gs'' & Hg'' & Hall');
    try assumption.
  - intros [sp P] [sq Q] [s R] Hp Hq
      (L & HP & HQ & _ & _ & ->)%multiply_pauli_ok_inv.
    cbn [snd] in *. by rewrite product_string_length.
  - intros M' HM'. cbn [snd]. rewrite Forall_forall in Hms. by apply Hms.
  - exists gs'. rewrite Hg' in Hg''. injection Hg'' as <-.
    repeat split; [assumption | | assumption].
    rewrite (Hlen eq_refl). lia.
Qed.

(** A call with at least one measurement that returns has checked the
    lengths: every input generator and every returned generator has a
    string of the inferred length [n]. *)
Theorem update_lengths l M ms outs h gs0 g h' :
  h !! l = Some gs0 →
  update_resource_with_fusions l (M :: ms) outs h = (Ok g, h') →
  Forall (λ x : gen, String.length x.2 = qubit_count gs0 (M :: ms)) gs0 ∧
  ∃ gs', h' !! g = Some gs' ∧
    Forall (λ x : gen, String.length x.2 = qubit_count gs0 (M :: ms)) gs'.
Proof.
  intros Hl Hrun. rewrite (update_unfold _ _ _ _ _ Hl) in Hrun.
  cbn zeta in Hrun.
  destruct (measure_all _ _ _ _ _) as [[[]|e1] h1] eqn:E1;
    [| discriminate Hrun].
  injection Hrun as <- <-.
  destruct (measure_all_lengths _ _ _ _ _ _ _ _ (lookup_insert_eq _ _ _) E1)
    as (Hgs0 & gs' & Hg' & _ & Hgs').
  eauto.
Qed.

Lemma update_lengths_witness :
  Forall (λ x : gen, String.length x.2 = 3%nat) scenario1_resource ∧
  ∃ gs', (update_resource_with_fusions 1%positive scenario1_fusions
            (Some scenario1_outcomes) scenario1_store).2 !! 2%positive
         = Some gs' ∧
         Forall (λ x : gen, String.length x.2 = 3%nat) gs'.
Proof.
  refine (update_lengths 1%positive "XII" ["IZI"%string]
            (Some scenario1_outcomes) scenario1_store scenario1_resource
            2%positive _ _ _).
  - reflexivity.
  - vm_compute. reflexivity.
Defined.

(** *** Commuting measurements *)

Lemma measure_all_commuting n outs g ms h gs :
  h !! g = Some gs →
  Forall (λ M, String.length M = n) ms →
  (∀ x M, x ∈ gs → M ∈ ms → anticommutes x.2 M = Ok false) →
  (∀ M M', M ∈ ms → M' ∈ ms → anticommutes M M' = Ok false) →
  measure_all n outs g ms h
  = (Ok tt, <[g := gs ++ ((λ M, (default 1 (outs !! M), M)) <$> ms)]> h).
Proof.
  intros Hg Hlen. revert h gs Hg.
  induction Hlen as [|M ms Hn _ IH]; intros h gs Hg Hgs Hms.
  - cbn [measure_all fmap list_fmap]. unfold ret.
    by rewrite app_nil_r, insert_id.
  - cbn [measure_all]. unfold bind.
    rewrite (measure_case_A_run n outs g M h gs Hg Hn).
    2:{ apply anti_idx_from_nil. intros i x Hx. apply Hgs; [| by left].
        by eapply list_elem_of_lookup_2. }
    rewrite (IH _ (gs ++ [(default 1 (outs !! M), M)]));
      [| by rewrite lookup_insert_eq | |].
    + rewrite insert_insert_eq, <- app_assoc. reflexivity.
    + intros x M' [Hx | Hx%list_elem_of_singleton]%elem_of_app HM'.
      * apply Hgs; [assumption | by right].
      * subst x. cbn [snd]. apply Hms; [by left | by right].
    + intros M1 M2 H1 H2. apply Hms; by right.
Qed.

(** Measurements of the inferred length that commute with every generator
    and with each other are all appended, in order, each with its outcome
    sign; the generators stay as they are. In particular a call without
    measurements returns a copy of the input, and on the empty generator
    list commuting measurements become the generators. *)
Theorem update_commuting_appends l ms outs h gs0 :
  h !! l = Some gs0 →
  Forall (λ M, String.length M = qubit_count gs0 ms) ms →
  (∀ x M, x ∈ gs0 → M ∈ ms → anticommutes x.2 M = Ok false) →
  (∀ M M', M ∈ ms → M' ∈ ms → anticommutes M M' = Ok false) →
  update_resource_with_fusions l ms outs h
  = (Ok (fresh (dom h)),
     <[fresh (dom h) :=
         gs0 ++ ((λ M, (default 1 (default ∅ outs !! M), M)) <$> ms)]> h).
Proof.
  intros Hl Hlen Hgs Hms. rewrite (update_unfold _ _ _ _ _ Hl). cbn zeta.
  rewrite (measure_all_commuting _ _ _ _ _ gs0);
    [| by rewrite lookup_insert_eq | assumption | assumption | assumption].
  by rewrite insert_insert_eq.
Qed.

Lemma update_commuting_appends_witness :
  update_resource_with_fusions 1%positive ["XX"%string; "ZZ"%string] None
    {[ 1%positive := [] ]}
  = (Ok 2%positive,
     <[ 2%positive := [(1, "XX"%string); (1, "ZZ"%string)] ]>
       {[ 1%positive := [] ]}).
Proof.
  refine (update_commuting_appends 1%positive ["XX"%string; "ZZ"%string] None
            {[ 1%positive := [] ]} [] _ _ _ _).
  - reflexivity.
  - repeat constructor.
  - intros x M Hx. by apply elem_of_nil in Hx.
  - intros M M' [-> | [-> | H]%elem_of_cons]%elem_of_cons
                [-> | [-> | H']%elem_of_cons]%elem_of_cons;
      try (by apply elem_of_nil in H); try (by apply elem_of_nil in H');
      reflexivity.
Defined.

(** *** Stabilizer lists *)

Lemma update_stabilizer_witness :
  ∃ gs', update_resource_with_fusions 1%positive scenario1_fusions
           (Some scenario1_outcomes) scenario1_store
         = (Ok (fresh (dom scenario1_store)),
            <[fresh (dom scenario1_store) := gs']> scenario1_store) ∧
         stabilizer_list 3 gs'.
Proof.
  refine (update_stabilizer 1%positive scenario1_fusions
            (Some scenario1_outcomes) scenario1_store scenario1_resource
            _ _ _).
  - reflexivity.
  - split.
    + intros [|[|[|i]]] x [= <-]; split; reflexivity.
    + intros [|[|[|i]]] [|[|[|j]]] x y [= <-] [= <-]; reflexivity.
  - repeat constructor.
Defined.

(** *** Runs compose *)

Lemma multiply_others_cons g old j js h cur :
  h !! g = Some cur →
  multiply_others g old (j :: js) h =
    match cur !! j with
    | None => (Raise IndexError, h)
    | Some x =>
        match multiply_pauli x old with
        | Raise e => (Raise e, h)
        | Ok r =>
            if decide (j < length cur)%nat then
              multiply_others g old js (<[g := <[j := r]> cur]> h)
            else (Raise IndexError, h)
        end
    end.
Proof.
  intros Hg. cbn [multiply_others]. unfold bind, list_getitem. rewrite Hg.
  destruct (cur !! j) as [x|]; [| reflexivity].
  unfold lift. destruct (multiply_pauli x old) as [r|e]; [| reflexivity].
  unfold list_setitem. rewrite Hg.
  destruct (decide (j < length cur)%nat); reflexivity.
Qed.

Lemma measure_unfold n outs g M h gs :
  h !! g = Some gs →
  measure n outs g M h =
    if decide (String.length M ≠ n) then
      (Raise ValueError_MeasurementLength, h)
    else
      match anti_idx_from 0 gs M with
      | Raise e => (Raise e, h)
      | Ok [] => (Ok tt, <[g := gs ++ [(default 1 (outs !! M), M)]]> h)
      | Ok (p :: rest) =>
          match gs !! p with
          | None => (Raise IndexError, h)
          | Some old =>
              if decide (p < length gs)%nat then
                multiply_others g old rest
                  (<[g := <[p := (default 1 (outs !! M), M)]> gs]> h)
              else (Raise IndexError, h)
          end
      end.
Proof.
  intros Hg. unfold measure.
  destruct (decide (String.length M ≠ n)); [reflexivity |].
  unfold bind at 1, list_read. rewrite Hg. unfold bind at 1, lift.
  destruct (anti_idx_from 0 gs M) as [[|p rest]|e]; [| | reflexivity].
  - unfold list_append. by rewrite Hg.
  - unfold bind at 1, list_getitem. rewrite Hg.
    destruct (gs !! p) as [old|]; [| reflexivity].
    unfold bind at 1, list_setitem. rewrite Hg.
    destruct (decide (p < length gs)%nat); reflexivity.
Qed.

Lemma multiply_others_local g1 g2 old js h1 h2 cur :
  h1 !! g1 = Some cur → h2 !! g2 = Some cur →
  ∃ r cur', multiply_others g1 old js h1 = (r, <[g1 := cur']> h1) ∧
            multiply_others g2 old js h2 = (r, <[g2 := cur']> h2).
Proof.
  revert h1 h2 cur. induction js as [|j js IH]; intros h1 h2 cur H1 H2.
  - exists (Ok tt), cur. cbn [multiply_others]. unfold ret.
    by rewrite !insert_id.
  - rewrite (multiply_others_cons _ _ _ _ _ _ H1),
      (multiply_others_cons _ _ _ _ _ _ H2).
    destruct (cur !! j) as [x|] eqn:Hx.
    2:{ exists (Raise IndexError), cur. by rewrite !insert_id. }
    destruct (multiply_pauli x old) as [r|e].
    2:{ exists (Raise e), cur. by rewrite !insert_id. }
    destruct (decide (j < length cur)%nat) as [Hj | Hj].
    2:{ exists (Raise IndexError), cur. by rewrite !insert_id. }
    destruct (IH (<[g1 := <[j := r]> cur]> h1) (<[g2 := <[j := r]> cur]> h2)
                (<[j := r]> cur))
      as (r' & cur' & E1 & E2); [by rewrite lookup_insert_eq .. |].
    exists r', cur'. by rewrite E1, E2, !insert_insert_eq.
Qed.

Lemma measure_local n outs g1 g2 M h1 h2 gs :
  h1 !! g1 = Some gs → h2 !! g2 = Some gs →
  ∃ r gs', measure n outs g1 M h1 = (r, <[g1 := gs']> h1) ∧
           measure n outs g2 M h2 = (r, <[g2 := gs']> h2).
Proof.
  intros H1 H2.
  rewrite (measure_unfold _ _ _ _ _ _ H1), (measure_unfold _ _ _ _ _ _ H2).
  destruct (decide (String.length M ≠ n)).
  { exists (Raise ValueError_MeasurementLength), gs. by rewrite !insert_id. }
  destruct (anti_idx_from 0 gs M) as [[|p rest]|e].
  - by eexists (Ok tt), _.
  - destruct (gs !! p) as [old|].
    2:{ exists (Raise IndexError), gs. by rewrite !insert_id. }
    destruct (decide (p < length gs)%nat).
    2:{ exists (Raise IndexError), gs. by rewrite !insert_id. }
    set (cur := <[p := (default 1 (outs !! M), M)]> gs).
    destruct (multiply_others_local g1 g2 old rest
                (<[g1 := cur]> h1) (<[g2 := cur]> h2) cur)
      as (r & cur' & E1 & E2); [by rewrite lookup_insert_eq .. |].
    exists r, cur'. by rewrite E1, E2, !insert_insert_eq.
  - exists (Raise e), gs. by rewrite !insert_id.
Qed.

(** A run of the loop depends on the store only through the items of the
    working list. *)
Lemma measure_all_local n outs g1 g2 ms h1 h2 gs :
  h1 !! g1 = Some gs → h2 !! g2 = Some gs →
  ∃ r gs', measure_all n outs g1 ms h1 = (r, <[g1 := gs']> h1) ∧
           measure_all n outs g2 ms h2 = (r, <[g2 := gs']> h2).
Proof.
  revert h1 h2 gs. induction ms as [|M ms IH]; intros h1 h2 gs H1 H2.
  - exists (Ok tt), gs. cbn [measure_all]. unfold ret.
    by rewrite !insert_id.
  - cbn [measure_all]. unfold bind.
    destruct (measure_local n outs g1 g2 M h1 h2 gs H1 H2)
      as ([[]|e] & gs1 & -> & ->).
    + destruct (IH (<[g1 := gs1]> h1) (<[g2 := gs1]> h2) gs1)
        as (r & gs' & E1 & E2); [by rewrite lookup_insert_eq .. |].
      exists r, gs'. by rewrite E1, E2, !insert_insert_eq.
    + by exists (Raise e), gs1.
Qed.

Lemma returned_list_run n outs g ms h r gs' :
  measure_all n outs g ms h = (r, <[g := gs']> h) →
  returned_list
    (match measure_all n outs g ms h with
     | (Ok _, h') => (Ok g, h')
     | (Raise e, h') => (Raise e, h')
     end)
  = match r with Ok _ => Ok gs' | Raise e => Raise e end.
Proof.
  intros ->. unfold returned_list.
  destruct r as [[]|e]; cbn [fst snd]; [| reflexivity].
  by rewrite lookup_insert_eq.
Qed.

(** Measuring [ms1 ++ ms2] in one call gives the caller the same list, or
    the same exception, as measuring [ms2] in a second call on the list
    returned by a call that measured [ms1]. *)
Theorem update_app l ms1 ms2 outs h gs0 g1 h1 :
  h !! l = Some gs0 →
  update_resource_with_fusions l ms1 outs h = (Ok g1, h1) →
  returned_list (update_resource_with_fusions l (ms1 ++ ms2) outs h)
  = returned_list (update_resource_with_fusions g1 ms2 outs h1).
Proof.
  intros Hl Hrun1. rewrite (update_unfold _ _ _ _ _ Hl) in Hrun1.
  cbn zeta in Hrun1.
  set (g := fresh (dom h)) in *. set (o := default ∅ outs) in *.
  set (h0 := <[g := gs0]> h) in *.
  assert (h0 !! g = Some gs0) as Hg0 by apply lookup_insert_eq.
  destruct (measure_all (qubit_count gs0 ms1) o g ms1 h0)
    as [[[]|e1] h1'] eqn:E1; [| discriminate Hrun1].
  injection Hrun1 as <- <-.
  destruct (measure_all_effect _ _ _ _ _ _ _ _ Hg0 E1)
    as [_ (gs1 & Hg1 & _)].
  assert (qubit_count gs0 (ms1 ++ ms2) = qubit_count gs1 ms2 ∧
          measure_all (qubit_count gs0 (ms1 ++ ms2)) o g ms1 h0
          = (Ok tt, h1')) as [Hn E1'].
  { destruct ms1 as [|M1 ms1].
    - injection E1 as <-. rewrite Hg0 in Hg1. injection Hg1 as <-. done.
    - destruct (measure_all_lengths _ _ _ _ _ _ _ _ Hg0 E1)
        as (_ & gs1' & Hg1' & Hpos & Hlen).
      rewrite Hg1 in Hg1'. injection Hg1' as <-.
      assert (qubit_count gs0 ((M1 :: ms1) ++ ms2)
              = qubit_count gs0 (M1 :: ms1)) as Hq
        by (by destruct gs0).
      rewrite Hq. split; [| assumption].
      destruct gs1 as [|x gs1]; [cbn in Hpos; lia |].
      apply Forall_cons in Hlen as [Hx _]. by rewrite <- Hx. }
  rewrite (update_unfold _ _ _ _ _ Hl). cbn zeta. fold g o h0.
  rewrite (update_unfold _ _ _ _ _ Hg1). cbn zeta. fold o.
  set (g2 := fresh (dom h1')). rewrite <- Hn.
  set (n := qubit_count gs0 (ms1 ++ ms2)) in *.
  destruct (measure_all_local n o g g2 ms2 h1' (<[g2 := gs1]> h1') gs1 Hg1
              (lookup_insert_eq _ _ _)) as (r & gs' & Ea & Eb).
  rewrite (returned_list_run _ _ _ _ _ _ _ Eb).
  assert (measure_all n o g (ms1 ++ ms2) h0 = (r, <[g := gs']> h1')) as Ec
    by (by rewrite measure_all_app, E1').
  rewrite Ec. unfold returned_list.
  destruct r as [[]|e]; cbn [fst snd]; [| reflexivity].
  by rewrite lookup_insert_eq.
Qed.

Lemma update_app_witness :
  returned_list
    (update_resource_with_fusions 1%positive
       (["XII"%string] ++ ["IZI"%string]) (Some scenario1_outcomes)
       scenario1_store)
  = returned_list
      (update_resource_with_fusions 2%positive ["IZI"%string]
         (Some scenario1_outcomes)
         (update_resource_with_fusions 1%positive ["XII"%string]
            (Some scenario1_outcomes) scenario1_store).2).
Proof.
  refine (update_app 1%positive ["XII"%string] ["IZI"%string]
            (Some scenario1_outcomes) scenario1_store scenario1_resource
            2%positive _ _ _).
  - reflexivity.
  - vm_compute. reflexivity.
Defined.

(** *** Measuring the same string again *)

(** No entry is recognised as already present: after a step for [M] that
    returns, a second step for the same [M] is in Case A and appends
    [(outcome, M)] once more. *)
Theorem measure_twice_appends n outs g M h gs h1 :
  h !! g = Some gs →
  measure n outs g M h = (Ok tt, h1) →
  ∃ gs1, h1 !! g = Some gs1 ∧
    (default 1 (outs !! M), M) ∈ gs1 ∧
    measure n outs g M h1
    = (Ok tt, <[g := gs1 ++ [(default 1 (outs !! M), M)]]> h1).
Proof.
  intros Hg Hrun.
  destruct (measure_ok_commutes n outs g M h gs h1 Hg Hrun)
    as (gs1 & Hg1 & Hin & Hcomm).
  destruct (measure_ok_inv n outs g M h gs h1 Hg Hrun) as (Hn & _).
  exists gs1. repeat split; [assumption | assumption |].
  apply measure_case_A_run; [assumption | assumption |].
  apply anti_idx_from_nil. intros i x Hx. apply Hcomm.
  by eapply list_elem_of_lookup_2.
Qed.

Lemma measure_twice_appends_witness :
  ∃ gs1,
    (measure 2 ∅ 1%positive "ZI" {[ 1%positive := [(1, "XX"%string)] ]}).2
      !! 1%positive = Some gs1 ∧
    (default 1 ((∅ : gmap string Z) !! "ZI"%string), "ZI"%string) ∈ gs1 ∧
    measure 2 ∅ 1%positive "ZI"
      (measure 2 ∅ 1%positive "ZI" {[ 1%positive := [(1, "XX"%string)] ]}).2
    = (Ok tt,
       <[ 1%positive :=
            gs1 ++ [(default 1 ((∅ : gmap string Z) !! "ZI"%string),
                     "ZI"%string)] ]>
         (measure 2 ∅ 1%positive "ZI"
            {[ 1%positive := [(1, "XX"%string)] ]}).2).
Proof.
  refine (measure_twice_appends 2 ∅ 1%positive "ZI"
            {[ 1%positive := [(1, "XX"%string)] ]} [(1, "XX"%string)] _ _ _).
  - reflexivity.
  - vm_compute. reflexivity.
Defined.

(** *** The store after a call *)

(** Whatever its outcome, a call changes no list that was in the store
    before it: it only adds one new list object, and that object is what
    it returns. *)
Theorem update_frame l ms outs h gs0 r h' :
  h !! l = Some gs0 →
  update_resource_with_fusions l ms outs h = (r, h') →
  h !! fresh (dom h) = None ∧
  (∀ l', is_Some (h !! l') → h' !! l' = h !! l') ∧
  is_Some (h' !! fresh (dom h)) ∧
  (∀ g, r = Ok g → g = fresh (dom h)).
Proof.
  intros Hl Hrun. rewrite (update_unfold _ _ _ _ _ Hl) in Hrun.
  cbn zeta in Hrun.
  assert (h !! fresh (dom h) = None) as Hfresh
    by (apply not_elem_of_dom, is_fresh).
  destruct (measure_all _ _ _ _ _) as [r1 h1] eqn:E1.
  destruct (measure_all_effect _ _ _ _ _ _ _ _ (lookup_insert_eq _ _ _) E1)
    as [Hfr (gs' & Hg' & _)].
  assert (h' = h1) as -> by (destruct r1 as [[]|e]; by injection Hrun).
  repeat split.
  - assumption.
  - intros l' [v Hv]. rewrite Hfr by (intros ->; congruence).
    apply lookup_insert_ne. intros <-. congruence.
  - eauto.
  - intros g ->. destruct r1 as [[]|e]; [| discriminate Hrun].
    by injection Hrun.
Qed.

Lemma update_frame_witness :
  (update_resource_with_fusions 1%positive scenario1_fusions
     (Some scenario1_outcomes) scenario1_store).2 !! 1%positive
  = scenario1_store !! 1%positive.
Proof.
  refine (proj1 (proj2 (update_frame 1%positive scenario1_fusions
                          (Some scenario1_outcomes) scenario1_store
                          scenario1_resource
                          (update_resource_with_fusions 1%positive
                             scenario1_fusions (Some scenario1_outcomes)
                             scenario1_store).1
                          _ _ _)) 1%positive _).
  - reflexivity.
  - vm_compute. reflexivity.
  - vm_compute. eauto.
Defined.

End updater_more.
